(** * Species catalogue: validator, detail dialog and list sorting

    A shallow embedding of the client-side logic of the species pages:
    - [speciesSchema] of [species-details-dialog.tsx] (a zod object schema),
    - the handlers of [SpeciesDetailsDialog] ([onSubmit], [startEditing],
      [handleCancel], [onDelete]) and the author-only controls it renders,
    - the sort effect and [handleSortToggle] of the two list clients
      ([species-list-client.tsx], which sorts a copy, and the router-driven
      variant, which sorts its prop in place).

    JavaScript strings are sequences of UTF-16 code units, JavaScript numbers
    are NaN, the two infinities or a finite rational; arrays live in a store
    addressed by references, so that aliasing between a prop and the state of
    a component is visible. *)

From Stdlib Require Import ZArith QArith List Bool String Ascii Lia Sorted.
From stdpp Require Import base option list gmap.
Import ListNotations.

Local Open Scope Z_scope.

(** ** JavaScript strings *)

Module JsString.

(** A string value: its UTF-16 code units. *)
Definition t := list N.

(** An ASCII literal of the source as a string value. *)
Definition js (s : String.string) : t :=
  List.map N_of_ascii (list_ascii_of_string s).

Definition eqb (a b : t) : bool := bool_decide (a = b).

(** [WhiteSpace] and [LineTerminator] of ECMAScript, the code points that
    [String.prototype.trim] removes. All of them are single code units. *)
Definition is_white_space (c : N) : bool :=
  ((9 <=? c) && (c <=? 13) ||
   (c =? 32) || (c =? 160) || (c =? 5760) ||
   (8192 <=? c) && (c <=? 8202) ||
   (c =? 8232) || (c =? 8233) || (c =? 8239) || (c =? 8287) ||
   (c =? 12288) || (c =? 65279))%N.

Fixpoint trimStart (s : t) : t :=
  match s with
  | c :: s' => if is_white_space c then trimStart s' else s
  | [] => []
  end.

Definition trimEnd (s : t) : t := rev (trimStart (rev s)).

(** [String.prototype.trim] *)
Definition trim (s : t) : t := trimEnd (trimStart s).

(** Empty or made of white space only. *)
Definition blank (s : t) : bool := forallb is_white_space s.

(** Neither the first nor the last code unit is white space. *)
Definition trimmed (s : t) : bool :=
  match s with
  | [] => true
  | c :: _ => negb (is_white_space c) && negb (is_white_space (List.last s c))
  end.

(** [!val] on a string: only the empty string is falsy. *)
Definition falsy (s : t) : bool := match s with [] => true | _ => false end.

End JsString.

Abbreviation jsstring := JsString.t.
Abbreviation js := JsString.js.

(** ** JavaScript numbers and values *)

Inductive number :=
| NaN
| Infinity (negative : bool)
| Finite (q : Q).

Module Number.

(** [Number.isInteger] *)
Definition isInteger (n : number) : bool :=
  match n with
  | Finite q => (Qnum q mod Zpos (Qden q) =? 0)
  | _ => false
  end.

(** [n < k] for an integer constant [k] of the source. *)
Definition ltZ (n : number) (k : Z) : bool :=
  match n with
  | NaN => false
  | Infinity negative => negative
  | Finite q => negb (Qle_bool (inject_Z k) q)
  end.

(** [n <= k] *)
Definition leZ (n : number) (k : Z) : bool :=
  match n with
  | NaN => false
  | Infinity negative => negative
  | Finite q => Qle_bool q (inject_Z k)
  end.

Definition zero : number := Finite (inject_Z 0).

End Number.

(** The values a form field can hold. *)
Inductive value :=
| VUndefined
| VNull
| VBool (b : bool)
| VNumber (n : number)
| VString (s : jsstring).

(** ** The zod combinators used by [speciesSchema] *)

Inductive type_name := TString | TNumber | TInteger | TBoolean.

(** The issues the schema can raise; [invalid_url] is the [invalid_string]
    issue of the [url] validation, [invalid_type TInteger] the issue of
    [int()]. *)
Inductive issue :=
| invalid_type (expected : type_name)
| too_small (minimum : Z) (inclusive : bool)
| invalid_url
| invalid_enum_value.

(** The outcome of parsing one value: the output, or the issues raised. *)
Inductive parsed (A : Type) :=
| Valid (a : A)
| Invalid (issues : list issue).
Arguments Valid {A} a.
Arguments Invalid {A} issues.

Definition is_valid {A} (r : parsed A) : bool :=
  match r with Valid _ => true | Invalid _ => false end.

(** *** The URL constructor

    The [url()] check accepts a string exactly when [new URL(s)] does not
    throw. The constructor strips leading and trailing C0 controls and
    spaces, removes tabs and newlines, and then needs a scheme: an ASCII
    letter, followed by letters, digits, [+], [-] or [.], up to a colon.
    Without a scheme there is no base to resolve against and parsing fails.
    What follows the scheme is parsed by [after_scheme]. *)

Module Url.

Definition is_c0_or_space (c : N) : bool := (c <=? 32)%N.
Definition is_tab_or_newline (c : N) : bool :=
  ((c =? 9) || (c =? 10) || (c =? 13))%N.
Definition is_alpha (c : N) : bool :=
  ((65 <=? c) && (c <=? 90) || (97 <=? c) && (c <=? 122))%N.
Definition is_digit (c : N) : bool := ((48 <=? c) && (c <=? 57))%N.
Definition is_scheme_char (c : N) : bool :=
  (is_alpha c || is_digit c || (c =? 43) || (c =? 45) || (c =? 46))%N.
Definition lower (c : N) : N :=
  if ((65 <=? c) && (c <=? 90))%N then (c + 32)%N else c.

Fixpoint strip_start (s : jsstring) : jsstring :=
  match s with
  | c :: s' => if is_c0_or_space c then strip_start s' else s
  | [] => []
  end.

Definition preprocess (s : jsstring) : jsstring :=
  List.filter (fun c => negb (is_tab_or_newline c))
              (rev (strip_start (rev (strip_start s)))).

(** The scheme state: the buffer so far and the input left. *)
Fixpoint scheme_state (buffer s : jsstring) : option (jsstring * jsstring) :=
  match s with
  | c :: s' =>
      if is_scheme_char c then scheme_state (buffer ++ [lower c]) s'
      else if (c =? 58)%N then Some (buffer, s')
      else None
  | [] => None
  end.

(** The scheme start state. *)
Definition scheme_start (s : jsstring) : option (jsstring * jsstring) :=
  match s with
  | c :: s' => if is_alpha c then scheme_state [lower c] s' else None
  | [] => None
  end.

Definition parses (after_scheme : jsstring -> jsstring -> bool)
           (s : jsstring) : bool :=
  match scheme_start (preprocess s) with
  | Some (scheme, rest) => after_scheme scheme rest
  | None => false
  end.

End Url.

Section Schema.

(** The part of the URL parser that runs once a scheme has been read:
    given the scheme and the remaining input, does parsing succeed? *)
Variable url_after_scheme : jsstring -> jsstring -> bool.

(** *** [z.string()] and its checks *)

Inductive string_check :=
| check_trim
| check_min (length : nat)
| check_url.

(** The checks run in the order they were added; [trim] rewrites the
    value the later checks and the output see. *)
Fixpoint run_string_checks (checks : list string_check) (s : jsstring)
  : jsstring * list issue :=
  match checks with
  | [] => (s, [])
  | check_trim :: checks' => run_string_checks checks' (JsString.trim s)
  | check_min n :: checks' =>
      let '(out, issues) := run_string_checks checks' s in
      if (List.length s <? n)%nat
      then (out, too_small (Z.of_nat n) true :: issues)
      else (out, issues)
  | check_url :: checks' =>
      let '(out, issues) := run_string_checks checks' s in
      if Url.parses url_after_scheme s
      then (out, issues)
      else (out, invalid_url :: issues)
  end.

Definition z_string (checks : list string_check) (v : value)
  : parsed jsstring :=
  match v with
  | VString s =>
      match run_string_checks checks s with
      | (out, []) => Valid out
      | (_, issues) => Invalid issues
      end
  | _ => Invalid [invalid_type TString]
  end.

(** *** [z.number()] and its checks *)

Inductive number_check :=
| check_int
| check_minimum (minimum : Z) (inclusive : bool).

(** [.positive()] is a minimum of 0, exclusive; [.min(1)] a minimum of 1,
    inclusive. *)
Definition z_positive : number_check := check_minimum 0 false.
Definition z_min (k : Z) : number_check := check_minimum k true.

Definition number_check_issue (c : number_check) (n : number)
  : list issue :=
  match c with
  | check_int =>
      if Number.isInteger n then [] else [invalid_type TInteger]
  | check_minimum k inclusive =>
      let tooSmall :=
        if inclusive then Number.ltZ n k else Number.leZ n k in
      if tooSmall then [too_small k inclusive] else []
  end.

(** NaN is not of type number for zod. Every check runs, each one that
    fails adds its issue. *)
Definition z_number (checks : list number_check) (v : value)
  : parsed number :=
  match v with
  | VNumber NaN => Invalid [invalid_type TNumber]
  | VNumber n =>
      match flat_map (fun c => number_check_issue c n) checks with
      | [] => Valid n
      | issues => Invalid issues
      end
  | _ => Invalid [invalid_type TNumber]
  end.

Definition z_boolean (v : value) : parsed bool :=
  match v with
  | VBool b => Valid b
  | _ => Invalid [invalid_type TBoolean]
  end.

(** *** [.nullable()] and [.transform()] *)

Definition nullable {A} (inner : value -> parsed A) (v : value)
  : parsed (option A) :=
  match v with
  | VNull => Valid None
  | _ => match inner v with
         | Valid a => Valid (Some a)
         | Invalid issues => Invalid issues
         end
  end.

(** The transform runs only on a value that raised no issue. *)
Definition transform {A B} (inner : value -> parsed A) (f : A -> B)
           (v : value) : parsed B :=
  match inner v with
  | Valid a => Valid (f a)
  | Invalid issues => Invalid issues
  end.

(** *** The kingdom enumeration *)

Inductive Kingdom :=
| Animalia | Plantae | Fungi | Protista | Archaea | Bacteria.

Definition kingdom_label (k : Kingdom) : jsstring :=
  match k with
  | Animalia => js "Animalia"
  | Plantae => js "Plantae"
  | Fungi => js "Fungi"
  | Protista => js "Protista"
  | Archaea => js "Archaea"
  | Bacteria => js "Bacteria"
  end.

Definition kingdoms_options : list Kingdom :=
  [Animalia; Plantae; Fungi; Protista; Archaea; Bacteria].

Definition kingdoms (v : value) : parsed Kingdom :=
  match v with
  | VString s =>
      match List.find (fun k => JsString.eqb (kingdom_label k) s)
                      kingdoms_options with
      | Some k => Valid k
      | None => Invalid [invalid_enum_value]
      end
  | _ => Invalid [invalid_type TString]
  end.

(** *** [speciesSchema], field by field *)

(** [(val) => (!val || val.trim() === "" ? null : val.trim())] *)
Definition blank_to_null (val : option jsstring) : option jsstring :=
  match val with
  | None => None
  | Some s =>
      if JsString.falsy s || JsString.eqb (JsString.trim s) []
      then None
      else Some (JsString.trim s)
  end.

Definition scientific_name_schema : value -> parsed jsstring :=
  transform (z_string [check_trim; check_min 1]) JsString.trim.

Definition common_name_schema : value -> parsed (option jsstring) :=
  transform (nullable (z_string [])) blank_to_null.

Definition total_population_schema : value -> parsed (option number) :=
  nullable (z_number [check_int; z_positive; z_min 1]).

Definition image_schema : value -> parsed (option jsstring) :=
  transform (nullable (z_string [check_url])) blank_to_null.

Definition description_schema : value -> parsed (option jsstring) :=
  transform (nullable (z_string [])) blank_to_null.

Definition endangered_schema : value -> parsed bool := z_boolean.


(** *** The object schema *)

(** What the form hands to the resolver: one raw value per field. *)
Record RawForm := {
  raw_scientific_name : value;
  raw_common_name : value;
  raw_kingdom : value;
  raw_total_population : value;
  raw_image : value;
  raw_description : value;
  raw_endangered : value
}.

(** [z.infer<typeof speciesSchema>] *)
Record FormData := {
  scientific_name : jsstring;
  common_name : option jsstring;
  kingdom : Kingdom;
  total_population : option number;
  image : option jsstring;
  description : option jsstring;
  endangered : bool
}.

Inductive field :=
| f_scientific_name
| f_common_name
| f_kingdom
| f_total_population
| f_image
| f_description
| f_endangered.

Inductive SafeParse :=
| Success (data : FormData)
| Failure (issues : list (field * issue)).

Definition at_path {A} (f : field) (r : parsed A) : list (field * issue) :=
  match r with
  | Valid _ => []
  | Invalid issues => List.map (pair f) issues
  end.

(** Every key of the shape is parsed, in the order of the shape; the issues
    of all of them are reported, each under the path of its key. *)
Definition speciesSchema (raw : RawForm) : SafeParse :=
  let r1 := scientific_name_schema (raw_scientific_name raw) in
  let r2 := common_name_schema (raw_common_name raw) in
  let r3 := kingdoms (raw_kingdom raw) in
  let r4 := total_population_schema (raw_total_population raw) in
  let r5 := image_schema (raw_image raw) in
  let r6 := description_schema (raw_description raw) in
  let r7 := endangered_schema (raw_endangered raw) in
  match r1, r2, r3, r4, r5, r6, r7 with
  | Valid a1, Valid a2, Valid a3, Valid a4, Valid a5, Valid a6, Valid a7 =>
      Success {| scientific_name := a1; common_name := a2; kingdom := a3;
                 total_population := a4; image := a5; description := a6;
                 endangered := a7 |}
  | _, _, _, _, _, _, _ =>
      Failure (at_path f_scientific_name r1 ++ at_path f_common_name r2 ++
               at_path f_kingdom r3 ++ at_path f_total_population r4 ++
               at_path f_image r5 ++ at_path f_description r6 ++
               at_path f_endangered r7)
  end.

(** The issues of all the fields, each under its path. *)
Definition all_issues (raw : RawForm) : list (field * issue) :=
  at_path f_scientific_name
          (scientific_name_schema (raw_scientific_name raw)) ++
  at_path f_common_name
          (common_name_schema (raw_common_name raw)) ++
  at_path f_kingdom (kingdoms (raw_kingdom raw)) ++
  at_path f_total_population
          (total_population_schema (raw_total_population raw)) ++
  at_path f_image (image_schema (raw_image raw)) ++
  at_path f_description
          (description_schema (raw_description raw)) ++
  at_path f_endangered (endangered_schema (raw_endangered raw)).

Definition field_eqb (a b : field) : bool :=
  match a, b with
  | f_scientific_name, f_scientific_name
  | f_common_name, f_common_name
  | f_kingdom, f_kingdom
  | f_total_population, f_total_population
  | f_image, f_image
  | f_description, f_description
  | f_endangered, f_endangered => true
  | _, _ => false
  end.

(** [zodResolver]: the errors shown in the form. The issues are read in
    order and a field keeps the first one raised for it. *)
Fixpoint parseErrorSchema (issues errors : list (field * issue))
  : list (field * issue) :=
  match issues with
  | [] => errors
  | (f, i) :: rest =>
      if existsb (fun e => field_eqb (fst e) f) errors
      then parseErrorSchema rest errors
      else parseErrorSchema rest (errors ++ [(f, i)])
  end.

Definition fieldErrors (r : SafeParse) : list (field * issue) :=
  match r with
  | Success _ => []
  | Failure issues => parseErrorSchema issues []
  end.

End Schema.

(** ** The detail dialog *)

(** A row of the species table. *)
Module Species.
Record t := {
  id : Z;
  author : jsstring;
  scientific_name : jsstring;
  common_name : option jsstring;
  kingdom : Kingdom;
  total_population : option number;
  image : option jsstring;
  description : option jsstring;
  endangered : bool
}.
End Species.

Definition string_or_null (o : option jsstring) : value :=
  match o with Some s => VString s | None => VNull end.

Definition number_or_null (o : option number) : value :=
  match o with Some n => VNumber n | None => VNull end.

(** The [defaultValues] of the component, read from its [species] prop. *)
Definition defaultValues (species : Species.t) : RawForm :=
  {| raw_scientific_name := VString (Species.scientific_name species);
     raw_common_name := string_or_null (Species.common_name species);
     raw_kingdom := VString (kingdom_label (Species.kingdom species));
     raw_total_population := number_or_null (Species.total_population species);
     raw_image := string_or_null (Species.image species);
     raw_description := string_or_null (Species.description species);
     raw_endangered := VBool (Species.endangered species) |}.

(** A validated payload as form values, for [form.reset(input)]. *)
Definition values_of (input : FormData) : RawForm :=
  {| raw_scientific_name := VString (scientific_name input);
     raw_common_name := string_or_null (common_name input);
     raw_kingdom := VString (kingdom_label (kingdom input));
     raw_total_population := number_or_null (total_population input);
     raw_image := string_or_null (image input);
     raw_description := string_or_null (description input);
     raw_endangered := VBool (endangered input) |}.

(** The form of react-hook-form: the baseline [reset] returns to and the
    current values, the draft. *)
Record Form := {
  formDefaults : RawForm;
  formValues : RawForm
}.

Inductive Variant := variant_default | destructive.

(** The argument of [toast]. *)
Module Toast.
Record t := {
  title : jsstring;
  description : jsstring;
  variant : Variant
}.
End Toast.

(** The calls made to the species table. *)
Inductive Request :=
| Update (input : FormData) (id : Z)
| Delete (id : Z).

(** What a handler does to the outside, in the order it does it. *)
Inductive Event :=
| ev_confirm (message : jsstring)
| ev_request (r : Request)
| ev_toast (t : Toast.t)
| ev_refresh.

(** The state of one mounted dialog and the trace of its effects. *)
Record Dialog := {
  isEditing : bool;
  form : Form;
  trace : list Event
}.

(** The collaborators: the answer of the user to [window.confirm], and the
    [error] of the backend for a request ([None] when it succeeds, the
    message otherwise). *)
Record Env := {
  window_confirm : jsstring -> bool;
  supabase : Request -> option jsstring
}.

(** Handlers are state transformers over [Dialog]. *)
Definition M (A : Type) : Type := Dialog -> A * Dialog.

Definition ret {A} (a : A) : M A := fun d => (a, d).

Definition bind {A B} (m : M A) (k : A -> M B) : M B :=
  fun d => let '(a, d') := m d in k a d'.

Declare Scope handler_scope.
Delimit Scope handler_scope with handler.
Notation "'let*' x ':=' m 'in' k" := (bind m (fun x => k))
  (at level 10, x name, m at level 100, k at level 200) : handler_scope.
Notation "m ';;' k" := (bind m (fun _ => k))
  (at level 100, k at level 200, right associativity) : handler_scope.

Definition exec {A} (m : M A) (d : Dialog) : Dialog := snd (m d).

Definition emit (e : Event) : M unit :=
  fun d => (tt, {| isEditing := isEditing d; form := form d;
                   trace := trace d ++ [e] |}).

Definition setIsEditing (b : bool) : M unit :=
  fun d => (tt, {| isEditing := b; form := form d; trace := trace d |}).

(** [form.reset(values)]: the values become both the baseline and the
    draft. *)
Definition form_reset (values : RawForm) : M unit :=
  fun d => (tt, {| isEditing := isEditing d;
                   form := {| formDefaults := values; formValues := values |};
                   trace := trace d |}).

Definition form_setValues (values : RawForm) : M unit :=
  fun d => (tt, {| isEditing := isEditing d;
                   form := {| formDefaults := formDefaults (form d);
                              formValues := values |};
                   trace := trace d |}).

Definition toast (t : Toast.t) : M unit := emit (ev_toast t).

Definition router_refresh : M unit := emit ev_refresh.

(** The notifications and the requests of a trace. *)
Definition toasts (tr : list Event) : list Toast.t :=
  flat_map (fun e => match e with ev_toast t => [t] | _ => [] end) tr.

Definition requests (tr : list Event) : list Request :=
  flat_map (fun e => match e with ev_request r => [r] | _ => [] end) tr.

Inductive Control := Confirm | Cancel | EditSpecies | DeleteSpecies.

Definition Control_eqb (a b : Control) : bool :=
  match a, b with
  | Confirm, Confirm | Cancel, Cancel
  | EditSpecies, EditSpecies | DeleteSpecies, DeleteSpecies => true
  | _, _ => false
  end.

Inductive ButtonType := type_submit | type_button.

Section SpeciesDetailsDialog.

Local Open Scope handler_scope.

Variable url_after_scheme : jsstring -> jsstring -> bool.

(** The props of the component and its collaborators. *)
Variable species : Species.t.
Variable currentUser : jsstring.
Variable env : Env.

Definition confirm (message : jsstring) : M bool :=
  emit (ev_confirm message);; ret (window_confirm env message).

Definition request (r : Request) : M (option jsstring) :=
  emit (ev_request r);; ret (supabase env r).

(** The dialog as mounted: viewing, the form seeded from the record. *)
Definition mount : Dialog :=
  {| isEditing := false;
     form := {| formDefaults := defaultValues species;
                formValues := defaultValues species |};
     trace := [] |}.

Definition onSubmit (input : FormData) : M unit :=
  let* error := request (Update input (Species.id species)) in
  match error with
  | Some message =>
      toast {| Toast.title := js "st went wrong";
               Toast.description := message;
               Toast.variant := destructive |}
  | None =>
      setIsEditing false;;
      form_reset (values_of input);;
      router_refresh;;
      toast {| Toast.title := js "Changes saved!";
               Toast.description :=
                 js "Saved your changes to " ++ scientific_name input
                    ++ js ".";
               Toast.variant := variant_default |}
  end.

(** The click handlers answer whether they called [preventDefault]. *)
Definition startEditing : M bool :=
  setIsEditing true;; ret true.

Definition handleCancel : M bool :=
  let* ok := confirm (js "Discard all changes?") in
  if negb ok then ret true
  else
    form_reset (defaultValues species);;
    setIsEditing false;;
    ret true.

Definition onDelete : M unit :=
  let* ok := confirm (js "Are you sure you want to delete this species?") in
  if ok then
    let* error := request (Delete (Species.id species)) in
    (match error with
     | Some message =>
         toast {| Toast.title := js "st went wrong";
                  Toast.description := message;
                  Toast.variant := destructive |}
     | None => ret tt
     end);;
    router_refresh;;
    toast {| Toast.title := js "Deletion saved!";
             Toast.description :=
               js "Deleted " ++ Species.scientific_name species
                  ++ js " successfully.";
             Toast.variant := variant_default |}
  else ret tt.

(** [form.handleSubmit(onSubmit)]: the draft goes through the resolver and
    [onSubmit] runs on the validated payload only. *)
Definition handleSubmit : M unit :=
  fun d =>
    match speciesSchema url_after_scheme (formValues (form d)) with
    | Success input => onSubmit input d
    | Failure _ => (tt, d)
    end.

(** The author-only controls of the form, as rendered. *)
Definition controls (d : Dialog) : list Control :=
  if JsString.eqb (Species.author species) currentUser then
    if isEditing d then [Confirm; Cancel] else [EditSpecies; DeleteSpecies]
  else [].

Definition rendered (c : Control) (d : Dialog) : bool :=
  existsb (Control_eqb c) (controls d).

Definition button_type (c : Control) : ButtonType :=
  match c with
  | Confirm | Cancel => type_submit
  | EditSpecies | DeleteSpecies => type_button
  end.

Definition onClick (c : Control) : M bool :=
  match c with
  | Confirm => ret false
  | Cancel => handleCancel
  | EditSpecies => startEditing
  | DeleteSpecies => onDelete;; ret false
  end.

(** A click runs the handler of the button; a submit button then submits
    the form unless the handler prevented it. *)
Definition click (c : Control) : M unit :=
  let* prevented := onClick c in
  match button_type c with
  | type_submit => if prevented then ret tt else handleSubmit
  | type_button => ret tt
  end.

End SpeciesDetailsDialog.

(** The row of the table once the backend has applied [update(input)] to
    it: the payload replaces the seven fields of the form. *)
Definition updated (species : Species.t) (input : FormData) : Species.t :=
  {| Species.id := Species.id species;
     Species.author := Species.author species;
     Species.scientific_name := scientific_name input;
     Species.common_name := common_name input;
     Species.kingdom := kingdom input;
     Species.total_population := total_population input;
     Species.image := image input;
     Species.description := description input;
     Species.endangered := endangered input |}.

(** The notifications and prompts of the handlers, by name. *)

Definition error_toast (message : jsstring) : Toast.t :=
  {| Toast.title := js "st went wrong";
     Toast.description := message;
     Toast.variant := destructive |}.

Definition saved_toast (input : FormData) : Toast.t :=
  {| Toast.title := js "Changes saved!";
     Toast.description :=
       js "Saved your changes to " ++ scientific_name input ++ js ".";
     Toast.variant := variant_default |}.

Definition deleted_toast (species : Species.t) : Toast.t :=
  {| Toast.title := js "Deletion saved!";
     Toast.description :=
       js "Deleted " ++ Species.scientific_name species
          ++ js " successfully.";
     Toast.variant := variant_default |}.

Definition discard_prompt : jsstring := js "Discard all changes?".

Definition delete_prompt : jsstring :=
  js "Are you sure you want to delete this species?".

(** ** The total population input *)

Section TotalPopulationInput.

(** [StringToNumber] on a non-empty trimmed text: the number a numeric
    literal denotes, NaN for any other text. *)
Variable StrNumericLiteral : jsstring -> number.

(** Unary plus on a string: white space around the text is ignored, and
    the empty text is [+0]. *)
Definition ToNumber (s : jsstring) : number :=
  match JsString.trim s with
  | [] => Number.zero
  | text => StrNumericLiteral text
  end.

Definition with_total_population (v : value) (values : RawForm) : RawForm :=
  {| raw_scientific_name := raw_scientific_name values;
     raw_common_name := raw_common_name values;
     raw_kingdom := raw_kingdom values;
     raw_total_population := v;
     raw_image := raw_image values;
     raw_description := raw_description values;
     raw_endangered := raw_endangered values |}.

(** [field.onChange(v)] of the total population field. *)
Definition field_onChange (v : value) : M unit :=
  fun d => form_setValues (with_total_population v (formValues (form d))) d.

(** [onChange={(event) => field.onChange(+event.target.value)}] *)
Definition total_population_onChange (target_value : jsstring) : M unit :=
  field_onChange (VNumber (ToNumber target_value)).

End TotalPopulationInput.

(** ** The list clients *)

(** Arrays are objects: a component holds references into a store. *)
Abbreviation ref := nat (only parsing).
Abbreviation Store := (gmap nat (list Species.t)) (only parsing).

(** A fresh array holding [items]. *)
Definition alloc (items : list Species.t) (σ : Store) : ref * Store :=
  let r := fresh (dom σ) in (r, <[r := items]> σ).

Section Sort.

Context {A : Type}.
Variable comparefn : A -> A -> Z.

(** [Array.prototype.sort(comparefn)] is stable: an element goes before
    the later elements it does not compare greater than. For a comparator
    that orders consistently, as a collation does, this is the one result
    every conforming sort returns. *)
Fixpoint sort_insert (x : A) (sorted : list A) : list A :=
  match sorted with
  | [] => [x]
  | y :: sorted' =>
      if comparefn x y <=? 0 then x :: sorted
      else y :: sort_insert x sorted'
  end.

Definition array_sort (items : list A) : list A :=
  List.fold_right sort_insert [] items.

End Sort.

Section Compare.

(** [String.prototype.toLowerCase] and [String.prototype.localeCompare] of
    the platform. *)
Variable toLowerCase : jsstring -> jsstring.
Variable localeCompare : jsstring -> jsstring -> Z.

(** The comparator both list clients pass to [sort]. *)
Definition compareSpecies (sortOrder : jsstring)
           (speciesA speciesB : Species.t) : Z :=
  let scientificNameA := toLowerCase (Species.scientific_name speciesA) in
  let scientificNameB := toLowerCase (Species.scientific_name speciesB) in
  let comparisonResult := localeCompare scientificNameA scientificNameB in
  if JsString.eqb sortOrder (js "asc")
  then comparisonResult
  else - comparisonResult.

End Compare.

(** *** [species-list-client.tsx]: local sort state, sorting a copy *)

Module ListClient.

Record t := {
  store : Store;
  species : ref;
  sortOrder : jsstring
}.

Section Component.

Variable toLowerCase : jsstring -> jsstring.
Variable localeCompare : jsstring -> jsstring -> Z.
Variable initialSpecies : ref.

(** The sort effect: [[...initialSpecies].sort(...)], then [setSpecies]. *)
Definition sortEffect (w : t) : t :=
  match store w !! initialSpecies with
  | Some items =>
      let '(copy, σ) := alloc items (store w) in
      let sorted :=
        array_sort (compareSpecies toLowerCase localeCompare (sortOrder w))
                   items in
      {| store := <[copy := sorted]> σ;
         species := copy;
         sortOrder := sortOrder w |}
  | None => w
  end.

Definition handleSortToggle (w : t) : t :=
  let newSortOrder :=
    if JsString.eqb (sortOrder w) (js "asc") then js "desc" else js "asc" in
  {| store := store w; species := species w; sortOrder := newSortOrder |}.

(** The effect depends on [[initialSpecies, sortOrder]]: after an update
    it runs again when the sort order is a different string. *)
Definition commit (before after : t) : t :=
  if JsString.eqb (sortOrder before) (sortOrder after)
  then after
  else sortEffect after.

(** The first render shows the prop as it is, then the effect runs. *)
Definition mount (σ : Store) : t :=
  sortEffect {| store := σ; species := initialSpecies;
                sortOrder := js "asc" |}.

(** A click on the sort button. *)
Definition toggleSort (w : t) : t := commit w (handleSortToggle w).

(** The records on screen, in order. *)
Definition displayed (w : t) : option (list Species.t) :=
  store w !! species w.

(** The states a mounted client goes through: the collection of the prop
    is as it was given, the order is one of the two labels, and the display
    is the sort of the collection under that order. *)
Definition settled (items : list Species.t) (w : t) : Prop :=
  store w !! initialSpecies = Some items /\
  (sortOrder w = js "asc" \/ sortOrder w = js "desc") /\
  displayed w =
    Some (array_sort (compareSpecies toLowerCase localeCompare (sortOrder w))
                     items).

End Component.

End ListClient.

(** *** The router-driven list client: sort order in the URL, sorting in
    place *)

Module RouterListClient.

Record t := {
  store : Store;
  species : ref;
  sortOrder : jsstring;
  pushed : list jsstring
}.

Section Component.

Variable toLowerCase : jsstring -> jsstring.
Variable localeCompare : jsstring -> jsstring -> Z.
Variable initialSpecies : ref.

(** The sort effect: [initialSpecies.sort(...)] sorts the array of the
    prop itself and returns it; [setSpecies] stores that reference. *)
Definition sortEffect (w : t) : t :=
  match store w !! initialSpecies with
  | Some items =>
      let sorted :=
        array_sort (compareSpecies toLowerCase localeCompare (sortOrder w))
                   items in
      {| store := <[initialSpecies := sorted]> (store w);
         species := initialSpecies;
         sortOrder := sortOrder w;
         pushed := pushed w |}
  | None => w
  end.

(** [router.push(`/?sort=${newSortOrder}`)]; the state is not set. *)
Definition handleSortToggle (w : t) : t :=
  let newSortOrder :=
    if JsString.eqb (sortOrder w) (js "asc") then js "desc" else js "asc" in
  {| store := store w; species := species w; sortOrder := sortOrder w;
     pushed := pushed w ++ [js "/?sort=" ++ newSortOrder] |}.

(** The effect depends on [[sortOrder]]. *)
Definition commit (before after : t) : t :=
  if JsString.eqb (sortOrder before) (sortOrder after)
  then after
  else sortEffect after.

(** [useState(router.query.sort || "asc")]: the sort order of the query
    string when there is a non-empty one. *)
Definition mount (query_sort : option jsstring) (σ : Store) : t :=
  let initial :=
    match query_sort with
    | Some (c :: s) => c :: s
    | _ => js "asc"
    end in
  sortEffect {| store := σ; species := initialSpecies;
                sortOrder := initial; pushed := [] |}.

Definition toggleSort (w : t) : t := commit w (handleSortToggle w).

End Component.

End RouterListClient.

(** ** The author info of the dialog *)

(** The columns [fetchAuthorInfo] selects from the profile of the author. *)
Module AuthorInfo.
Record t := {
  email : jsstring;
  display_name : jsstring;
  biography : option jsstring
}.
End AuthorInfo.

(** What the query for the profile comes back with. *)
Inductive ProfileResponse :=
| profile_data (data : AuthorInfo.t)
| profile_error (message : jsstring).

(** The [authorInfo] state of the dialog, and what was written to the
    console, one entry per call with its arguments. *)
Record AuthorPanel := {
  authorInfo : option AuthorInfo.t;
  console : list (list jsstring)
}.

(** [useState(null)] *)
Definition author_panel_mount : AuthorPanel :=
  {| authorInfo := None; console := [] |}.

(** [fetchAuthorInfo], by the response of the backend: an error is logged
    and the function returns; the data is stored otherwise. *)
Definition fetchAuthorInfo (response : ProfileResponse) (p : AuthorPanel)
  : AuthorPanel :=
  match response with
  | profile_error message =>
      {| authorInfo := authorInfo p;
         console := console p ++
                    [[js "Error fetching author info:"; message]] |}
  | profile_data data =>
      {| authorInfo :=
           Some {| AuthorInfo.email := AuthorInfo.email data;
                   AuthorInfo.display_name := AuthorInfo.display_name data;
                   AuthorInfo.biography := AuthorInfo.biography data |};
         console := console p |}
  end.

(** The effect runs on mount and again whenever [species.author] changes:
    the responses of the successive fetches, each settled before the next. *)
Definition fetches (responses : list ProfileResponse) (p : AuthorPanel)
  : AuthorPanel :=
  List.fold_left (fun p response => fetchAuthorInfo response p) responses p.

(** The author block is rendered when [authorInfo] is set. *)
Definition author_block (p : AuthorPanel) : option AuthorInfo.t := authorInfo p.

(** ** A session with the dialog *)

(** What a user does to a dialog: a click on a control, answered by the
    collaborators as [env] says, or typing that leaves the draft as
    [draft]. *)
Inductive Action :=
| act_click (c : Control) (env : Env)
| act_change (draft : RawForm).

Definition request_id (r : Request) : Z :=
  match r with
  | Update _ id => id
  | Delete id => id
  end.

Section Session.

Variable url_after_scheme : jsstring -> jsstring -> bool.
Variable species : Species.t.
Variable currentUser : jsstring.

(** Only a rendered control can be clicked. *)
Definition press (c : Control) (env : Env) (d : Dialog) : Dialog :=
  if rendered species currentUser c d
  then exec (click url_after_scheme species env c) d
  else d.

(** The inputs are read-only, the select and the checkbox disabled, unless
    the dialog is editing. *)
Definition change (draft : RawForm) (d : Dialog) : Dialog :=
  if isEditing d then exec (form_setValues draft) d else d.

Definition step (d : Dialog) (a : Action) : Dialog :=
  match a with
  | act_click c env => press c env d
  | act_change draft => change draft d
  end.

Definition run (actions : list Action) (d : Dialog) : Dialog :=
  List.fold_left step actions d.

(** The requests a dialog may issue: for its own record, updates carrying
    a payload the validator produced. *)
Definition legitimate (r : Request) : Prop :=
  request_id r = Species.id species /\
  match r with
  | Update input _ =>
      exists raw, speciesSchema url_after_scheme raw = Success input
  | Delete _ => True
  end.

End Session.

(** ** Orderings *)

(** [a] may stand before [b] under the comparator. *)
Definition in_order {A} (comparefn : A -> A -> Z) (a b : A) : Prop :=
  comparefn a b <= 0.

(** The elements the comparator ranks with [x]. *)
Definition ranked_with {A} (comparefn : A -> A -> Z) (x : A) (l : list A)
  : list A :=
  List.filter (fun y => comparefn x y =? 0) l.

(** ** Sample records and collaborators

    Concrete inputs on which the properties below are exercised. *)

Definition felis_catus : Species.t :=
  {| Species.id := 7;
     Species.author := js "user-a";
     Species.scientific_name := js "Felis catus";
     Species.common_name := Some (js "Cat");
     Species.kingdom := Animalia;
     Species.total_population := Some (Finite (inject_Z 600000000));
     Species.image := None;
     Species.description := None;
     Species.endangered := false |}.

Definition canis_lupus : Species.t :=
  {| Species.id := 3;
     Species.author := js "user-b";
     Species.scientific_name := js "Canis lupus";
     Species.common_name := Some (js "Wolf");
     Species.kingdom := Animalia;
     Species.total_population := None;
     Species.image := None;
     Species.description := None;
     Species.endangered := false |}.

(** A draft in which the common name of [felis_catus] was retyped. *)
Definition felis_draft : RawForm :=
  {| raw_scientific_name := VString (js "Felis catus");
     raw_common_name := VString (js "House cat");
     raw_kingdom := VString (js "Animalia");
     raw_total_population := VNumber (Finite (inject_Z 600000000));
     raw_image := VNull;
     raw_description := VNull;
     raw_endangered := VBool false |}.

Definition felis_input : FormData :=
  {| scientific_name := js "Felis catus";
     common_name := Some (js "House cat");
     kingdom := Animalia;
     total_population := Some (Finite (inject_Z 600000000));
     image := None;
     description := None;
     endangered := false |}.

Definition felis_editing : Dialog :=
  {| isEditing := true;
     form := {| formDefaults := defaultValues felis_catus;
                formValues := felis_draft |};
     trace := [] |}.

(** A user who answers every confirmation with [answer], and a backend
    that answers every request with [error]. *)
Definition sample_env (answer : bool) (error : option jsstring) : Env :=
  {| window_confirm := fun _ => answer; supabase := fun _ => error |}.

(** A URL parser that accepts whatever follows a scheme. *)
Definition any_after_scheme (scheme rest : jsstring) : bool := true.

(** Lower-casing of the ASCII letters and comparison by code units: what
    [toLowerCase] and [localeCompare] do on unaccented ASCII names. *)
Definition ascii_toLowerCase (s : jsstring) : jsstring := List.map Url.lower s.

Fixpoint codeunit_compare (a b : jsstring) : Z :=
  match a, b with
  | [], [] => 0
  | [], _ :: _ => -1
  | _ :: _, [] => 1
  | x :: a', y :: b' =>
      if (x <? y)%N then -1
      else if (y <? x)%N then 1
      else codeunit_compare a' b'
  end.

(** A store holding one array, [canis_lupus] after [felis_catus]. *)
Definition sample_store : Store := {[ 0%nat := [felis_catus; canis_lupus] ]}.

(** The record of the validation scenario: a cat with an empty common name
    and a population of 0; the remaining fields are left open. *)
Definition scenario_record (image description endangered : value) : RawForm :=
  {| raw_scientific_name := VString (js "Felis catus");
     raw_common_name := VString (js "");
     raw_kingdom := VString (js "Animalia");
     raw_total_population := VNumber Number.zero;
     raw_image := image;
     raw_description := description;
     raw_endangered := endangered |}.

(** A router-driven client on [sample_store], ascending, before its effect
    has run. *)
Definition sample_router_client : RouterListClient.t :=
  {| RouterListClient.store := sample_store;
     RouterListClient.species := 0%nat;
     RouterListClient.sortOrder := js "asc";
     RouterListClient.pushed := [] |}.

(** A draft in which the common name was retyped once more. *)
Definition tiger_draft : RawForm :=
  {| raw_scientific_name := VString (js "Felis catus");
     raw_common_name := VString (js "Tiger");
     raw_kingdom := VString (js "Animalia");
     raw_total_population := VNumber (Finite (inject_Z 600000000));
     raw_image := VNull;
     raw_description := VNull;
     raw_endangered := VBool false |}.

(** The author of [felis_catus] commits [felis_draft], the backend
    accepting it, then edits again and types [tiger_draft], the dialog
    still holding the record as it was mounted. *)
Definition felis_recommitting : Dialog :=
  run any_after_scheme felis_catus (js "user-a")
      [act_click EditSpecies (sample_env true None);
       act_change felis_draft;
       act_click Confirm (sample_env true None);
       act_click EditSpecies (sample_env true None);
       act_change tiger_draft]
      (mount felis_catus).

(** * Properties *)

(** ** Trimming *)

Lemma trimStart_split (s : jsstring) :
  exists pre, s = pre ++ JsString.trimStart s /\ JsString.blank pre = true.
Proof.
  induction s as [|c s [pre [Hs Hb]]]; simpl.
  - exists []. split; reflexivity.
  - destruct (JsString.is_white_space c) eqn:Hc.
    + exists (c :: pre). simpl. rewrite Hc, Hb. split; [congruence | reflexivity].
    + exists []. split; reflexivity.
Qed.

Lemma trimStart_head (s : jsstring) (c : N) (rest : jsstring) :
  JsString.trimStart s = c :: rest -> JsString.is_white_space c = false.
Proof.
  induction s as [|x s IH]; simpl; [discriminate |].
  destruct (JsString.is_white_space x) eqn:Hx; [exact IH |].
  intros H; injection H as <- _. exact Hx.
Qed.

Lemma trimStart_blank (s : jsstring) :
  JsString.trimStart s = [] <-> JsString.blank s = true.
Proof.
  induction s as [|c s IH]; simpl; [tauto |].
  destruct (JsString.is_white_space c); simpl; [exact IH |].
  split; discriminate.
Qed.

Lemma blank_app (a b : jsstring) :
  JsString.blank (a ++ b) = JsString.blank a && JsString.blank b.
Proof. apply forallb_app. Qed.

Lemma blank_rev (s : jsstring) : JsString.blank (rev s) = JsString.blank s.
Proof.
  induction s as [|c s IH]; [reflexivity |].
  simpl rev. rewrite blank_app, IH. simpl. rewrite andb_true_r. apply andb_comm.
Qed.

Lemma trimEnd_split (s : jsstring) :
  exists post, s = JsString.trimEnd s ++ post /\ JsString.blank post = true.
Proof.
  destruct (trimStart_split (rev s)) as [pre [Hs Hb]].
  exists (rev pre). split.
  - unfold JsString.trimEnd. rewrite <- rev_app_distr, <- Hs.
    symmetry. apply rev_involutive.
  - rewrite blank_rev. exact Hb.
Qed.

Lemma trimEnd_blank (s : jsstring) :
  JsString.trimEnd s = [] <-> JsString.blank s = true.
Proof.
  unfold JsString.trimEnd. rewrite <- blank_rev, <- trimStart_blank.
  split; intros H.
  - apply (f_equal (@rev N)) in H. rewrite rev_involutive in H. exact H.
  - rewrite H. reflexivity.
Qed.

Lemma trim_blank (s : jsstring) :
  JsString.trim s = [] <-> JsString.blank s = true.
Proof.
  unfold JsString.trim. rewrite trimEnd_blank.
  destruct (trimStart_split s) as [pre [Hs Hb]].
  split; intros H.
  - rewrite Hs, blank_app, Hb, H. reflexivity.
  - destruct (JsString.trimStart s) as [|c rest] eqn:E; [reflexivity |].
    apply trimStart_head in E.
    rewrite Hs, blank_app in H. simpl in H. rewrite E in H.
    rewrite andb_false_r in H. discriminate.
Qed.

(** [trim] cuts a blank prefix and a blank suffix, and what is left neither
    starts nor ends with white space. *)
Lemma trim_spec (s : jsstring) :
  (exists pre post,
      s = pre ++ JsString.trim s ++ post /\
      JsString.blank pre = true /\ JsString.blank post = true) /\
  JsString.trimmed (JsString.trim s) = true.
Proof.
  split.
  - destruct (trimStart_split s) as [pre [Hs Hb]].
    destruct (trimEnd_split (JsString.trimStart s)) as [post [Ht Hp]].
    exists pre, post. unfold JsString.trim.
    rewrite <- Ht. auto.
  - unfold JsString.trim.
    set (u := JsString.trimStart s).
    assert (Hend : forall c rest,
               JsString.trimStart (rev u) = c :: rest ->
               JsString.is_white_space c = false)
      by (intros c rest; apply trimStart_head).
    assert (Hstart : forall c rest,
               u = c :: rest -> JsString.is_white_space c = false)
      by (intros c rest; apply trimStart_head).
    destruct (trimEnd_split u) as [post [Hu Hp]].
    unfold JsString.trimEnd in *.
    destruct (JsString.trimStart (rev u)) as [|e r] eqn:E; [reflexivity |].
    specialize (Hend e r eq_refl).
    simpl rev in *.
    destruct (rev r ++ [e]) as [|c0 t] eqn:Ert.
    + destruct (rev r); discriminate.
    + unfold JsString.trimmed.
      rewrite (Hstart c0 (t ++ post)) by (rewrite Hu; reflexivity).
      rewrite <- Ert, last_last, Hend. reflexivity.
Qed.

(** ** The validator *)

Section SchemaProperties.

Variable url_after_scheme : jsstring -> jsstring -> bool.

Lemma blank_to_null_spec (s : jsstring) :
  blank_to_null (Some s) =
  if JsString.blank s then None else Some (JsString.trim s).
Proof.
  unfold blank_to_null, JsString.eqb.
  destruct (JsString.blank s) eqn:Hb.
  - apply trim_blank in Hb. rewrite Hb.
    rewrite bool_decide_eq_true_2 by reflexivity.
    rewrite orb_true_r. reflexivity.
  - assert (Hne : JsString.trim s <> []).
    { intros H. apply trim_blank in H. congruence. }
    rewrite bool_decide_eq_false_2 by exact Hne.
    destruct s; [discriminate Hb | reflexivity].
Qed.

(** C8. The optional text fields (common name, description): an empty or
    white-space-only string is output as the absent marker [None], never as
    the empty string; any other string is output as its [trim], which is
    the input without a blank prefix and a blank suffix and has no white
    space at either end. *)
Theorem optional_text_normalizes (s : jsstring) :
  let out := if JsString.blank s then None else Some (JsString.trim s) in
  common_name_schema url_after_scheme (VString s) = Valid out /\
  description_schema url_after_scheme (VString s) = Valid out /\
  out <> Some [] /\
  (exists pre post,
      s = pre ++ JsString.trim s ++ post /\
      JsString.blank pre = true /\ JsString.blank post = true) /\
  JsString.trimmed (JsString.trim s) = true.
Proof.
  intros out.
  assert (Hf : transform (nullable (z_string url_after_scheme []))
                         blank_to_null (VString s) = Valid out).
  { unfold transform, nullable, z_string, run_string_checks.
    rewrite blank_to_null_spec. reflexivity. }
  split; [exact Hf |]. split; [exact Hf |].
  split; [| apply trim_spec].
  subst out. destruct (JsString.blank s) eqn:Hb; [discriminate |].
  intros H. injection H as H. apply trim_blank in H. congruence.
Qed.

(** The absent marker itself passes the optional text fields unchanged. *)
Lemma optional_text_null :
  common_name_schema url_after_scheme VNull = Valid None /\
  description_schema url_after_scheme VNull = Valid None.
Proof. split; reflexivity. Qed.

(** *** The object schema reports the issues of all its fields *)

Lemma speciesSchema_cases (raw : RawForm) :
  speciesSchema url_after_scheme raw = Failure (all_issues url_after_scheme raw) \/
  (all_issues url_after_scheme raw = [] /\
   exists data, speciesSchema url_after_scheme raw = Success data).
Proof.
  unfold speciesSchema, all_issues.
  destruct (scientific_name_schema _ _); [| left; reflexivity].
  destruct (common_name_schema _ _); [| left; reflexivity].
  destruct (kingdoms _); [| left; reflexivity].
  destruct (total_population_schema _); [| left; reflexivity].
  destruct (image_schema _ _); [| left; reflexivity].
  destruct (description_schema _ _); [| left; reflexivity].
  destruct (endangered_schema _); [| left; reflexivity].
  right. split; [reflexivity | eexists; reflexivity].
Qed.

Lemma speciesSchema_failure (raw : RawForm) :
  all_issues url_after_scheme raw <> [] ->
  speciesSchema url_after_scheme raw = Failure (all_issues url_after_scheme raw).
Proof.
  intros Hne. destruct (speciesSchema_cases raw) as [H | [H _]];
    [exact H | contradiction].
Qed.

End SchemaProperties.

Section ScenarioProperties.

Variable url_after_scheme : jsstring -> jsstring -> bool.

(** The two issues a population of 0 raises: it is not positive, and it is
    below the minimum of 1. *)
Lemma population_zero_issues :
  total_population_schema (VNumber Number.zero) =
  Invalid [too_small 0 false; too_small 1 true].
Proof. reflexivity. Qed.

(** C9. The record with scientific name "Felis catus", an empty common
    name, kingdom "Animalia" and a total population of 0, its other fields
    being valid, fails validation; every issue is on the population field
    and the form shows one error, for that field; the empty common name
    itself parses to the absent marker. *)
Theorem scenario_population_error_only (im desc en : value) :
  is_valid (image_schema url_after_scheme im) = true ->
  is_valid (description_schema url_after_scheme desc) = true ->
  is_valid (endangered_schema en) = true ->
  let r := speciesSchema url_after_scheme (scenario_record im desc en) in
  r = Failure [(f_total_population, too_small 0 false);
               (f_total_population, too_small 1 true)] /\
  fieldErrors r = [(f_total_population, too_small 0 false)] /\
  common_name_schema url_after_scheme (VString (js "")) = Valid None.
Proof.
  intros Him Hdesc Hen r.
  assert (Hr : r = Failure [(f_total_population, too_small 0 false);
                            (f_total_population, too_small 1 true)]).
  { subst r. rewrite speciesSchema_failure; unfold all_issues; simpl;
      destruct (image_schema url_after_scheme im); try discriminate;
      destruct (description_schema url_after_scheme desc); try discriminate;
      destruct (endangered_schema en); try discriminate.
    reflexivity. }
  rewrite Hr. repeat split; reflexivity.
Qed.

(** Whatever the other fields hold, the scenario fails, with the two
    population issues first and nothing on the name, common name or
    kingdom. *)
Lemma scenario_always_fails (im desc en : value) :
  speciesSchema url_after_scheme (scenario_record im desc en) =
  Failure ([(f_total_population, too_small 0 false);
            (f_total_population, too_small 1 true)] ++
           at_path f_image (image_schema url_after_scheme im) ++
           at_path f_description (description_schema url_after_scheme desc) ++
           at_path f_endangered (endangered_schema en)).
Proof.
  rewrite speciesSchema_failure; [reflexivity |].
  unfold all_issues. simpl. discriminate.
Qed.

(** *** The image field *)

Lemma white_space_not_alpha (c : N) :
  JsString.is_white_space c = true -> Url.is_alpha c = false.
Proof.
  unfold JsString.is_white_space, Url.is_alpha. intros H.
  apply not_true_is_false. intros Ha.
  rewrite !orb_true_iff, !andb_true_iff, !N.leb_le, !N.eqb_eq in *. lia.
Qed.

Lemma strip_start_In (s : jsstring) (c : N) :
  In c (Url.strip_start s) -> In c s.
Proof.
  induction s as [|x s IH]; simpl; [tauto |].
  destruct (Url.is_c0_or_space x); [right; auto | tauto].
Qed.

Lemma preprocess_In (s : jsstring) (c : N) :
  In c (Url.preprocess s) -> In c s.
Proof.
  unfold Url.preprocess. intros H.
  apply filter_In in H as [H _].
  apply in_rev, strip_start_In, in_rev, strip_start_In in H. exact H.
Qed.

Lemma blank_no_scheme (s : jsstring) :
  JsString.blank s = true -> Url.parses url_after_scheme s = false.
Proof.
  intros Hb. unfold Url.parses, Url.scheme_start.
  destruct (Url.preprocess s) as [|c rest] eqn:E; [reflexivity |].
  assert (Hc : In c s) by (apply preprocess_In; rewrite E; left; reflexivity).
  unfold JsString.blank in Hb. rewrite forallb_forall in Hb.
  rewrite (white_space_not_alpha c (Hb c Hc)). reflexivity.
Qed.

(** What the image field does on every string and on null: a string must
    pass the URL check and is then output trimmed; null stays null. *)
Lemma image_schema_spec (s : jsstring) :
  image_schema url_after_scheme VNull = Valid None /\
  image_schema url_after_scheme (VString s) =
  if Url.parses url_after_scheme s
  then Valid (Some (JsString.trim s))
  else Invalid [invalid_url].
Proof.
  split; [reflexivity |].
  unfold image_schema, transform, nullable, z_string, run_string_checks.
  destruct (Url.parses url_after_scheme s) eqn:Hp; [| reflexivity].
  rewrite blank_to_null_spec.
  destruct (JsString.blank s) eqn:Hb; [| reflexivity].
  rewrite blank_no_scheme in Hp by exact Hb. discriminate.
Qed.

(** C3. An empty or white-space-only image is rejected by the URL check
    with an [invalid_url] issue; it never reaches the transform that would
    turn it into the absent marker. *)
Theorem image_blank_rejected (s : jsstring) :
  JsString.blank s = true ->
  image_schema url_after_scheme (VString s) = Invalid [invalid_url].
Proof.
  intros Hb. destruct (image_schema_spec s) as [_ H].
  rewrite H, blank_no_scheme by exact Hb. reflexivity.
Qed.

End ScenarioProperties.

(** The scenario with no image, no description and the flag unset. *)
Lemma scenario_population_error_only_witness :
  is_valid (image_schema any_after_scheme VNull) = true /\
  fieldErrors (speciesSchema any_after_scheme
                             (scenario_record VNull VNull (VBool false))) =
  [(f_total_population, too_small 0 false)].
Proof.
  split; [reflexivity |].
  apply (scenario_population_error_only any_after_scheme
                                        VNull VNull (VBool false));
    reflexivity.
Defined.

(** The cleared image input. *)
Lemma image_blank_rejected_witness :
  JsString.blank (js "") = true /\
  image_schema any_after_scheme (VString (js "")) = Invalid [invalid_url].
Proof.
  split; [reflexivity |].
  apply (image_blank_rejected any_after_scheme (js "")). reflexivity.
Defined.

(** ** The total population input *)

Section PopulationProperties.

Variable url_after_scheme : jsstring -> jsstring -> bool.
Variable StrNumericLiteral : jsstring -> number.
Variable species : Species.t.
Variable env : Env.

Lemma ToNumber_blank (s : jsstring) :
  JsString.blank s = true -> ToNumber StrNumericLiteral s = Number.zero.
Proof.
  intros Hb. apply trim_blank in Hb. unfold ToNumber. rewrite Hb. reflexivity.
Qed.

(** C10. The change handler of the total population input stores the
    unary-plus coercion of the typed string and touches nothing else. For
    the cleared input that is the number 0, not the absent marker: the
    field then fails validation with the two population issues, the schema
    fails, and submitting the form issues no request. *)
Theorem population_input_stores_number (raw : jsstring) (d : Dialog) :
  let d' := exec (total_population_onChange StrNumericLiteral raw) d in
  let cleared := exec (total_population_onChange StrNumericLiteral (js "")) d in
  formValues (form d') =
    with_total_population (VNumber (ToNumber StrNumericLiteral raw))
                          (formValues (form d)) /\
  formDefaults (form d') = formDefaults (form d) /\
  isEditing d' = isEditing d /\ trace d' = trace d /\
  raw_total_population (formValues (form cleared)) = VNumber Number.zero /\
  raw_total_population (formValues (form cleared)) <> VNull /\
  total_population_schema (raw_total_population (formValues (form cleared))) =
    Invalid [too_small 0 false; too_small 1 true] /\
  (exists issues,
      speciesSchema url_after_scheme (formValues (form cleared)) =
        Failure issues /\
      In (f_total_population, too_small 0 false) issues) /\
  exec (handleSubmit url_after_scheme species env) cleared = cleared.
Proof.
  intros d' cleared.
  assert (Hin : In (f_total_population, too_small 0 false)
                   (all_issues url_after_scheme (formValues (form cleared)))).
  { unfold all_issues. rewrite !in_app_iff.
    right. right. right. left. simpl. left. reflexivity. }
  assert (Hfail : speciesSchema url_after_scheme (formValues (form cleared)) =
                  Failure (all_issues url_after_scheme
                                      (formValues (form cleared)))).
  { apply speciesSchema_failure. intros E. rewrite E in Hin. exact Hin. }
  repeat split; try reflexivity.
  - discriminate.
  - eexists. split; [exact Hfail | exact Hin].
  - unfold exec, handleSubmit. rewrite Hfail. reflexivity.
Qed.

End PopulationProperties.

(** ** The detail dialog *)

Lemma toasts_app (a b : list Event) : toasts (a ++ b) = toasts a ++ toasts b.
Proof. apply flat_map_app. Qed.

Lemma requests_app (a b : list Event) :
  requests (a ++ b) = requests a ++ requests b.
Proof. apply flat_map_app. Qed.

Section DialogProperties.

Variable url_after_scheme : jsstring -> jsstring -> bool.
Variable species : Species.t.
Variable currentUser : jsstring.
Variable env : Env.

(** The whole effect of [onSubmit], by the answer of the backend. *)
Lemma onSubmit_trace (input : FormData) (d : Dialog) :
  exec (onSubmit species env input) d =
  match supabase env (Update input (Species.id species)) with
  | Some message =>
      {| isEditing := isEditing d;
         form := form d;
         trace := (trace d ++ [ev_request (Update input (Species.id species))])
                    ++ [ev_toast (error_toast message)] |}
  | None =>
      {| isEditing := false;
         form := {| formDefaults := values_of input;
                    formValues := values_of input |};
         trace := ((trace d ++
                    [ev_request (Update input (Species.id species))])
                    ++ [ev_refresh]) ++ [ev_toast (saved_toast input)] |}
  end.
Proof.
  unfold exec, onSubmit, request, bind, emit, ret. simpl.
  destruct (supabase env _); reflexivity.
Qed.

(** The whole effect of [onDelete], by the answer of the user and of the
    backend. *)
Lemma onDelete_trace (d : Dialog) :
  exec (onDelete species env) d =
  {| isEditing := isEditing d;
     form := form d;
     trace :=
       trace d ++ ev_confirm delete_prompt ::
       (if window_confirm env delete_prompt then
          ev_request (Delete (Species.id species)) ::
          match supabase env (Delete (Species.id species)) with
          | Some message => [ev_toast (error_toast message)]
          | None => []
          end ++ [ev_refresh; ev_toast (deleted_toast species)]
        else []) |}.
Proof.
  unfold exec, onDelete, confirm, request, bind, emit, ret. simpl.
  fold delete_prompt.
  destruct (window_confirm env delete_prompt); simpl.
  - destruct (supabase env _); simpl;
      rewrite <- ?app_assoc; reflexivity.
  - reflexivity.
Qed.

(** A commit notifies once: the success toast when the update succeeds,
    the error toast with the message of the backend when it fails. *)
Lemma onSubmit_notifies_once (input : FormData) (d : Dialog) :
  toasts (trace (exec (onSubmit species env input) d)) =
  toasts (trace d) ++
  [match supabase env (Update input (Species.id species)) with
   | Some message => error_toast message
   | None => saved_toast input
   end].
Proof.
  rewrite onSubmit_trace.
  destruct (supabase env _); simpl; rewrite !toasts_app; simpl;
    rewrite ?app_nil_r; reflexivity.
Qed.

(** A confirmed delete that succeeds notifies once. *)
Lemma onDelete_success_notifies_once (d : Dialog) :
  window_confirm env delete_prompt = true ->
  supabase env (Delete (Species.id species)) = None ->
  toasts (trace (exec (onDelete species env) d)) =
  toasts (trace d) ++ [deleted_toast species].
Proof.
  intros Hc Hs. rewrite onDelete_trace. simpl. rewrite Hc, Hs.
  rewrite toasts_app. reflexivity.
Qed.

(** C1. A confirmed delete that the backend refuses with [message]
    presents two notifications: the error toast carrying [message], and
    after it the "Deletion saved!" success toast; the refresh signal is
    sent as well. *)
Theorem onDelete_failure_notifies_twice (message : jsstring) (d : Dialog) :
  window_confirm env delete_prompt = true ->
  supabase env (Delete (Species.id species)) = Some message ->
  toasts (trace (exec (onDelete species env) d)) =
    toasts (trace d) ++ [error_toast message; deleted_toast species] /\
  trace (exec (onDelete species env) d) =
    trace d ++ [ev_confirm delete_prompt;
                ev_request (Delete (Species.id species));
                ev_toast (error_toast message);
                ev_refresh;
                ev_toast (deleted_toast species)].
Proof.
  intros Hc Hs. rewrite onDelete_trace. simpl. rewrite Hc, Hs.
  rewrite toasts_app. split; reflexivity.
Qed.

(** C2, as amended. The delete button is rendered exactly when the session
    identity equals the author of the record and the dialog is viewing (an
    author who is editing sees Confirm and Cancel instead). A click on it
    first asks for confirmation; the delete request is issued once when
    the user confirms and not at all when the user declines, in which
    case nothing else happens. *)
Theorem delete_rendered_for_author_viewing (d : Dialog) :
  (rendered species currentUser DeleteSpecies d = true <->
   Species.author species = currentUser /\ isEditing d = false) /\
  (exists rest,
      trace (exec (click url_after_scheme species env DeleteSpecies) d) =
        trace d ++ ev_confirm delete_prompt :: rest /\
      requests rest =
        (if window_confirm env delete_prompt
         then [Delete (Species.id species)] else []) /\
      (if window_confirm env delete_prompt then True else rest = [])) /\
  isEditing (exec (click url_after_scheme species env DeleteSpecies) d) =
    isEditing d /\
  form (exec (click url_after_scheme species env DeleteSpecies) d) = form d.
Proof.
  split.
  - unfold rendered, controls, JsString.eqb.
    destruct (decide (Species.author species = currentUser)) as [He | Hne].
    + rewrite bool_decide_eq_true_2 by exact He.
      destruct (isEditing d); simpl; split; intros H;
        try discriminate; try (destruct H; discriminate); auto.
    + rewrite bool_decide_eq_false_2 by exact Hne. simpl.
      split; [discriminate | intros [H _]; contradiction].
  - assert (Hclick : exec (click url_after_scheme species env DeleteSpecies) d
                     = exec (onDelete species env) d).
    { unfold exec, click, onClick, button_type, bind, ret.
      destruct (onDelete species env d) as [[] d']. reflexivity. }
    rewrite Hclick, onDelete_trace. simpl.
    split; [| split; reflexivity].
    eexists. split; [reflexivity |].
    destruct (window_confirm env delete_prompt); [| split; reflexivity].
    split; [| exact I].
    destruct (supabase env _); reflexivity.
Qed.

(** C5, as amended. In an editing dialog a click on Cancel asks "Discard
    all changes?" and does nothing else to the outside: no request, no
    notification, no submission of the form. If the user confirms, the
    dialog is viewing and the draft and the baseline of the form are the
    fields of the record the dialog holds as its prop, null where the
    record has none; that is the baseline the edit started from whenever
    that baseline was the one of the prop. If the user declines, the dialog
    is still editing and its form is untouched. *)
Theorem cancel_resets_to_record (d : Dialog) :
  isEditing d = true ->
  let d' := exec (click url_after_scheme species env Cancel) d in
  trace d' = trace d ++ [ev_confirm discard_prompt] /\
  requests (trace d') = requests (trace d) /\
  if window_confirm env discard_prompt
  then isEditing d' = false /\
       formValues (form d') =
         {| raw_scientific_name := VString (Species.scientific_name species);
            raw_common_name :=
              match Species.common_name species with
              | Some name => VString name
              | None => VNull
              end;
            raw_kingdom := VString (kingdom_label (Species.kingdom species));
            raw_total_population :=
              match Species.total_population species with
              | Some n => VNumber n
              | None => VNull
              end;
            raw_image :=
              match Species.image species with
              | Some url => VString url
              | None => VNull
              end;
            raw_description :=
              match Species.description species with
              | Some text => VString text
              | None => VNull
              end;
            raw_endangered := VBool (Species.endangered species) |} /\
       formDefaults (form d') = formValues (form d') /\
       (formDefaults (form d) = defaultValues species ->
        formValues (form d') = formDefaults (form d))
  else form d' = form d /\ isEditing d' = true.
Proof.
  intros He d'. subst d'.
  unfold exec, click, onClick, button_type, handleCancel, confirm, bind,
    emit, ret. simpl. fold discard_prompt.
  destruct (window_confirm env discard_prompt); simpl;
    rewrite requests_app; simpl; rewrite app_nil_r; auto.
  repeat split. intros H. rewrite H. reflexivity.
Qed.

(** Once the parent has passed the updated row down, the default values
    of the dialog are the payload of the last commit: a later cancel goes
    back to what was committed. *)
Lemma cancel_restores_last_commit
      (input : FormData) (draft : RawForm) (d : Dialog) :
  supabase env (Update input (Species.id species)) = None ->
  window_confirm env discard_prompt = true ->
  let committed := exec (onSubmit species env input) d in
  let editing := exec (form_setValues draft) (exec startEditing committed) in
  let d' := exec (click url_after_scheme (updated species input) env Cancel)
                 editing in
  isEditing committed = false /\ isEditing editing = true /\
  formValues (form editing) = draft /\
  formValues (form d') = formDefaults (form committed) /\
  isEditing d' = false.
Proof.
  intros Hs Hc committed editing d'.
  subst d' editing committed. rewrite onSubmit_trace, Hs.
  unfold exec, click, onClick, button_type, handleCancel, confirm, bind,
    emit, ret. simpl. fold discard_prompt. rewrite Hc. simpl. auto.
Qed.

(** C6. When the update of a commit comes back with an error, the dialog
    shows one destructive toast carrying the message of the backend and
    changes nothing else: the editing flag, the draft and the baseline of
    the form are as before, and no refresh is signalled. *)
Theorem failed_commit_keeps_state
        (input : FormData) (message : jsstring) (d : Dialog) :
  isEditing d = true ->
  supabase env (Update input (Species.id species)) = Some message ->
  let d' := exec (onSubmit species env input) d in
  isEditing d' = true /\
  formValues (form d') = formValues (form d) /\
  formDefaults (form d') = formDefaults (form d) /\
  trace d' = trace d ++ [ev_request (Update input (Species.id species));
                         ev_toast (error_toast message)].
Proof.
  intros He Hs d'. subst d'. rewrite onSubmit_trace, Hs. simpl.
  rewrite <- app_assoc. auto.
Qed.

(** The same through the Confirm button: the draft is validated, the
    update is requested, and on an error the dialog is left as it was. *)
Lemma failed_commit_by_click
      (input : FormData) (message : jsstring) (d : Dialog) :
  speciesSchema url_after_scheme (formValues (form d)) = Success input ->
  supabase env (Update input (Species.id species)) = Some message ->
  let d' := exec (click url_after_scheme species env Confirm) d in
  isEditing d' = isEditing d /\ form d' = form d /\
  toasts (trace d') = toasts (trace d) ++ [error_toast message].
Proof.
  intros Hv Hs d'.
  assert (E : d' = exec (onSubmit species env input) d).
  { subst d'. unfold exec, click, onClick, button_type, bind, ret,
      handleSubmit. rewrite Hv. reflexivity. }
  rewrite E, onSubmit_trace, Hs. simpl.
  rewrite !toasts_app. simpl. rewrite app_nil_r. auto.
Qed.

End DialogProperties.

(** The author of [felis_catus], editing it, has no delete button: being the
    author is not enough for the button to be rendered. *)
Lemma delete_hidden_while_editing :
  ~ (rendered felis_catus (js "user-a") DeleteSpecies felis_editing = true <->
     Species.author felis_catus = js "user-a").
Proof.
  intros [_ H]. specialize (H eq_refl). vm_compute in H. discriminate H.
Qed.

(** A confirmed delete of [felis_catus] that the backend denies. *)
Lemma onDelete_failure_notifies_twice_witness :
  window_confirm (sample_env true (Some (js "denied"))) delete_prompt = true /\
  toasts (trace (exec (onDelete felis_catus
                                (sample_env true (Some (js "denied"))))
                      (mount felis_catus))) =
  [error_toast (js "denied"); deleted_toast felis_catus].
Proof.
  split; [reflexivity |].
  apply (onDelete_failure_notifies_twice
           felis_catus (sample_env true (Some (js "denied")))
           (js "denied") (mount felis_catus) eq_refl eq_refl).
Defined.

(** A confirmed cancel of an edit of [felis_catus]. *)
Lemma cancel_resets_to_record_witness :
  isEditing felis_editing = true /\
  trace (exec (click any_after_scheme felis_catus (sample_env true None)
                     Cancel) felis_editing) =
  [ev_confirm discard_prompt].
Proof.
  split; [reflexivity |].
  apply (cancel_resets_to_record
           any_after_scheme felis_catus (sample_env true None)
           felis_editing eq_refl).
Defined.

(** The author commits "House cat" and edits again while the dialog still
    holds the record as it was mounted: the baseline of the form is the
    committed "House cat", and a confirmed cancel puts the draft on the
    "Cat" of the record, not on that baseline. *)
Lemma cancel_after_commit_misses_baseline :
  isEditing felis_recommitting = true /\
  window_confirm (sample_env true None) discard_prompt = true /\
  raw_common_name (formDefaults (form felis_recommitting)) =
    VString (js "House cat") /\
  raw_common_name
    (formValues
       (form (exec (click any_after_scheme felis_catus (sample_env true None)
                          Cancel) felis_recommitting))) =
    VString (js "Cat") /\
  ~ (formValues
       (form (exec (click any_after_scheme felis_catus (sample_env true None)
                          Cancel) felis_recommitting)) =
     formDefaults (form felis_recommitting)).
Proof.
  repeat split; try reflexivity.
  intros H. apply (f_equal raw_common_name) in H.
  vm_compute in H. discriminate H.
Qed.

(** A commit of [felis_input] that the backend denies. *)
Lemma failed_commit_keeps_state_witness :
  supabase (sample_env true (Some (js "denied")))
           (Update felis_input (Species.id felis_catus)) =
    Some (js "denied") /\
  isEditing (exec (onSubmit felis_catus (sample_env true (Some (js "denied")))
                            felis_input) felis_editing) = true.
Proof.
  split; [reflexivity |].
  apply (failed_commit_keeps_state
           felis_catus (sample_env true (Some (js "denied")))
           felis_input (js "denied") felis_editing eq_refl eq_refl).
Defined.

(** ** The list clients *)

Lemma alloc_fresh (items : list Species.t) (σ : gmap nat (list Species.t)) :
  σ !! (alloc items σ).1 = None.
Proof. unfold alloc. simpl. apply not_elem_of_dom, is_fresh. Qed.

Section SortModel.

Context {A : Type}.
Variable comparefn : A -> A -> Z.

Lemma sort_insert_Permutation (x : A) (l : list A) :
  Permutation (sort_insert comparefn x l) (x :: l).
Proof.
  induction l as [|y l IH]; simpl; [reflexivity |].
  destruct (comparefn x y <=? 0); [reflexivity |].
  rewrite IH. apply perm_swap.
Qed.

(** Sorting rearranges: nothing is lost and nothing is added. *)
Lemma array_sort_Permutation (l : list A) :
  Permutation (array_sort comparefn l) l.
Proof.
  induction l as [|x l IH]; simpl; [reflexivity |].
  rewrite sort_insert_Permutation, IH. reflexivity.
Qed.

End SortModel.

Section ListClientProperties.

Variable toLowerCase : jsstring -> jsstring.
Variable localeCompare : jsstring -> jsstring -> Z.
Variable initialSpecies : nat.

Abbreviation compare := (compareSpecies toLowerCase localeCompare).
Abbreviation sortEffect :=
  (ListClient.sortEffect toLowerCase localeCompare initialSpecies).
Abbreviation toggleSort :=
  (ListClient.toggleSort toLowerCase localeCompare initialSpecies).
Abbreviation mount_list :=
  (ListClient.mount toLowerCase localeCompare initialSpecies).
Abbreviation settled :=
  (ListClient.settled toLowerCase localeCompare initialSpecies).

(** The effect of the copying client leaves every array that exists
    alone, the collection of the prop included. *)
Lemma copy_sort_frame (w : ListClient.t) (r : nat) (l : list Species.t) :
  ListClient.store w !! r = Some l ->
  ListClient.store (sortEffect w) !! r = Some l.
Proof.
  intros Hr. unfold ListClient.sortEffect.
  destruct (ListClient.store w !! initialSpecies) as [items|] eqn:Hi;
    [| exact Hr].
  pose proof (alloc_fresh items (ListClient.store w)) as Hfresh.
  unfold alloc in *. simpl in *.
  assert (Hne : fresh (dom (ListClient.store w)) <> r) by congruence.
  rewrite !lookup_insert_ne by exact Hne. exact Hr.
Qed.

(** What the copying client displays after its effect: the stable sort of
    the collection of the prop under the current order. *)
Lemma copy_sort_displayed (w : ListClient.t) (items : list Species.t) :
  ListClient.store w !! initialSpecies = Some items ->
  ListClient.displayed (sortEffect w) =
    Some (array_sort (compare (ListClient.sortOrder w)) items) /\
  ListClient.sortOrder (sortEffect w) = ListClient.sortOrder w.
Proof.
  intros Hi. unfold ListClient.displayed, ListClient.sortEffect.
  rewrite Hi. unfold alloc. simpl. rewrite lookup_insert_eq. auto.
Qed.

(** Running the effect again on the same collection and order displays
    the same ordering. *)
Lemma copy_sort_repeatable (w : ListClient.t) (items : list Species.t) :
  ListClient.store w !! initialSpecies = Some items ->
  ListClient.displayed (sortEffect (sortEffect w)) =
  ListClient.displayed (sortEffect w).
Proof.
  intros Hi.
  destruct (copy_sort_displayed w items Hi) as [Hd Ho].
  pose proof (copy_sort_frame w _ _ Hi) as Hi'.
  destruct (copy_sort_displayed (sortEffect w) items Hi') as [Hd' _].
  rewrite Hd', Hd, Ho. reflexivity.
Qed.

Lemma mount_settled (σ : gmap nat (list Species.t)) (items : list Species.t) :
  σ !! initialSpecies = Some items -> settled items (mount_list σ).
Proof.
  intros Hi. unfold ListClient.mount.
  set (w := {| ListClient.store := σ; ListClient.species := initialSpecies;
               ListClient.sortOrder := js "asc" |}).
  destruct (copy_sort_displayed w items Hi) as [Hd Ho].
  repeat split.
  - apply copy_sort_frame. exact Hi.
  - left. rewrite Ho. reflexivity.
  - rewrite Hd, Ho. reflexivity.
Qed.

Lemma toggleSort_settled (items : list Species.t) (w : ListClient.t) :
  settled items w ->
  settled items (toggleSort w) /\
  ListClient.sortOrder (toggleSort w) =
    (if JsString.eqb (ListClient.sortOrder w) (js "asc")
     then js "desc" else js "asc").
Proof.
  intros [Hi [Ho Hd]].
  unfold ListClient.toggleSort, ListClient.commit.
  set (w' := ListClient.handleSortToggle w).
  assert (Hi' : ListClient.store w' !! initialSpecies = Some items)
    by exact Hi.
  assert (Hw' : ListClient.sortOrder w' =
                if JsString.eqb (ListClient.sortOrder w) (js "asc")
                then js "desc" else js "asc") by reflexivity.
  assert (Hchanged : JsString.eqb (ListClient.sortOrder w)
                                  (ListClient.sortOrder w') = false).
  { rewrite Hw'. destruct Ho as [-> | ->]; reflexivity. }
  rewrite Hchanged.
  destruct (copy_sort_displayed w' items Hi') as [Hd' Ho'].
  split; [| rewrite Ho'; exact Hw'].
  repeat split.
  - apply copy_sort_frame. exact Hi'.
  - rewrite Ho', Hw'. destruct Ho as [-> | ->]; [right | left]; reflexivity.
  - rewrite Hd', Ho'. reflexivity.
Qed.

Lemma reachable_settled (σ : gmap nat (list Species.t))
      (items : list Species.t) (n : nat) :
  σ !! initialSpecies = Some items ->
  settled items (Nat.iter n toggleSort (mount_list σ)).
Proof.
  intros Hi. induction n as [|n IH]; simpl.
  - apply mount_settled. exact Hi.
  - apply toggleSort_settled. exact IH.
Qed.

End ListClientProperties.

Section SortProperties.

Variable toLowerCase : jsstring -> jsstring.
Variable localeCompare : jsstring -> jsstring -> Z.
Variable initialSpecies : nat.

(** In the router-driven client a click only pushes a URL: the store, the
    reference the component holds and its sort order stay as they are. *)
Lemma router_toggle_keeps_state (w : RouterListClient.t) :
  let w' := RouterListClient.toggleSort toLowerCase localeCompare
                                        initialSpecies w in
  RouterListClient.store w' = RouterListClient.store w /\
  RouterListClient.species w' = RouterListClient.species w /\
  RouterListClient.sortOrder w' = RouterListClient.sortOrder w.
Proof.
  unfold RouterListClient.toggleSort, RouterListClient.commit. simpl.
  unfold JsString.eqb. rewrite bool_decide_eq_true_2 by reflexivity.
  simpl. auto.
Qed.

(** C7. For the list client mounted on any collection and clicked any
    number of times, two more clicks on the sort button bring back the
    order label and the displayed ordering, the click in between having
    switched the label; what is displayed is the stable sort of the
    collection under the label. *)
Theorem toggleSort_twice_restores_display
        (σ : gmap nat (list Species.t)) (items : list Species.t) (n : nat) :
  σ !! initialSpecies = Some items ->
  let toggle :=
    ListClient.toggleSort toLowerCase localeCompare initialSpecies in
  let w :=
    Nat.iter n toggle
             (ListClient.mount toLowerCase localeCompare initialSpecies σ) in
  ListClient.displayed (toggle (toggle w)) = ListClient.displayed w /\
  ListClient.sortOrder (toggle (toggle w)) = ListClient.sortOrder w /\
  ListClient.sortOrder (toggle w) <> ListClient.sortOrder w /\
  ListClient.displayed w =
    Some (array_sort (compareSpecies toLowerCase localeCompare
                                     (ListClient.sortOrder w)) items) /\
  ListClient.displayed (toggle w) =
    Some (array_sort (compareSpecies toLowerCase localeCompare
                                     (ListClient.sortOrder (toggle w)))
                     items).
Proof.
  intros Hi toggle w.
  pose proof (reachable_settled toLowerCase localeCompare initialSpecies
                                σ items n Hi) as Hw.
  fold toggle in Hw. fold w in Hw.
  destruct (toggleSort_settled _ _ _ items w Hw) as [Hw1 Ho1].
  fold toggle in Hw1, Ho1.
  destruct (toggleSort_settled _ _ _ items (toggle w) Hw1) as [Hw2 Ho2].
  fold toggle in Hw2, Ho2.
  destruct Hw as [_ [Ho Hd]]. destruct Hw2 as [_ [_ Hd2]].
  destruct Hw1 as [_ [_ Hd1]].
  assert (Hback : ListClient.sortOrder (toggle (toggle w)) =
                  ListClient.sortOrder w).
  { rewrite Ho2, Ho1. destruct Ho as [-> | ->]; reflexivity. }
  repeat split.
  - rewrite Hd2, Hback, Hd. reflexivity.
  - exact Hback.
  - rewrite Ho1. destruct Ho as [-> | ->]; discriminate.
  - exact Hd.
  - exact Hd1.
Qed.

(** C4. The effect of the router-driven client sorts the array of its prop
    in place: whenever the collection is not already in the order asked
    for, the source collection is changed by re-deriving the display. *)
Theorem inplace_sort_mutates_source
        (w : RouterListClient.t) (items : list Species.t) :
  RouterListClient.store w !! initialSpecies = Some items ->
  array_sort (compareSpecies toLowerCase localeCompare
                             (RouterListClient.sortOrder w)) items <> items ->
  let w' := RouterListClient.sortEffect toLowerCase localeCompare
                                        initialSpecies w in
  RouterListClient.store w' !! initialSpecies =
    Some (array_sort (compareSpecies toLowerCase localeCompare
                                     (RouterListClient.sortOrder w)) items) /\
  RouterListClient.store w' !! initialSpecies <>
    RouterListClient.store w !! initialSpecies /\
  RouterListClient.species w' = initialSpecies.
Proof.
  intros Hi Hne w'. subst w'. unfold RouterListClient.sortEffect.
  rewrite Hi. simpl. rewrite lookup_insert_eq.
  repeat split. congruence.
Qed.

(** The client with local sort state re-derives without touching the
    source, and re-deriving again displays the same ordering. *)
Lemma copy_sort_keeps_source
      (w : ListClient.t) (items : list Species.t) :
  ListClient.store w !! initialSpecies = Some items ->
  let effect :=
    ListClient.sortEffect toLowerCase localeCompare initialSpecies in
  ListClient.store (effect w) !! initialSpecies = Some items /\
  ListClient.displayed (effect w) =
    Some (array_sort (compareSpecies toLowerCase localeCompare
                                     (ListClient.sortOrder w)) items) /\
  ListClient.displayed (effect (effect w)) = ListClient.displayed (effect w).
Proof.
  intros Hi effect. split; [| split].
  - apply copy_sort_frame. exact Hi.
  - apply (copy_sort_displayed _ _ _ w items Hi).
  - apply (copy_sort_repeatable _ _ _ w items Hi).
Qed.

End SortProperties.

(** Two toggles on the two records of [sample_store]. *)
Lemma toggleSort_twice_restores_display_witness :
  sample_store !! 0%nat = Some [felis_catus; canis_lupus] /\
  ListClient.displayed
    (ListClient.toggleSort
       ascii_toLowerCase codeunit_compare 0
       (ListClient.toggleSort
          ascii_toLowerCase codeunit_compare 0
          (ListClient.mount ascii_toLowerCase codeunit_compare 0
                            sample_store))) =
  ListClient.displayed
    (ListClient.mount ascii_toLowerCase codeunit_compare 0 sample_store).
Proof.
  split; [reflexivity |].
  apply (toggleSort_twice_restores_display
           ascii_toLowerCase codeunit_compare 0%nat sample_store
           [felis_catus; canis_lupus] 0%nat eq_refl).
Defined.

(** The in-place effect on [sample_store]: the array of the prop comes out
    reordered. *)
Lemma inplace_sort_mutates_source_witness :
  RouterListClient.store sample_router_client !! 0%nat =
    Some [felis_catus; canis_lupus] /\
  RouterListClient.store
    (RouterListClient.sortEffect ascii_toLowerCase codeunit_compare 0
                                 sample_router_client)
    !! 0%nat = Some [canis_lupus; felis_catus].
Proof.
  split; [reflexivity |].
  apply (inplace_sort_mutates_source
           ascii_toLowerCase codeunit_compare 0%nat sample_router_client
           [felis_catus; canis_lupus] eq_refl).
  vm_compute. intros H. discriminate H.
Defined.

(** * Further properties *)

(** ** The validator, field by field *)

Lemma trimmed_trim (t : jsstring) :
  JsString.trimmed t = true -> JsString.trim t = t.
Proof.
  destruct t as [|c r]; [reflexivity |].
  unfold JsString.trimmed. intros H.
  apply andb_true_iff in H as [Hc Hl].
  apply negb_true_iff in Hc, Hl.
  unfold JsString.trim, JsString.trimEnd.
  assert (Hs : JsString.trimStart (c :: r) = c :: r)
    by (simpl; rewrite Hc; reflexivity).
  rewrite Hs.
  assert (Hne : c :: r <> []) by discriminate.
  destruct (exists_last Hne) as [front [e He]].
  rewrite He in Hl |- *. rewrite last_last in Hl.
  rewrite rev_app_distr. simpl. rewrite Hl.
  simpl. rewrite rev_involutive. reflexivity.
Qed.

Lemma trim_idempotent (s : jsstring) :
  JsString.trim (JsString.trim s) = JsString.trim s.
Proof. apply trimmed_trim, trim_spec. Qed.

Lemma trim_not_blank (s : jsstring) :
  JsString.blank s = false -> JsString.blank (JsString.trim s) = false.
Proof.
  intros Hb. apply not_true_is_false. intros H.
  apply trim_blank in H. rewrite trim_idempotent in H.
  apply trim_blank in H. congruence.
Qed.

Section FieldProperties.

Variable url_after_scheme : jsstring -> jsstring -> bool.

Lemma scientific_name_schema_string (s : jsstring) :
  scientific_name_schema url_after_scheme (VString s) =
  if JsString.blank s
  then Invalid [too_small 1 true]
  else Valid (JsString.trim s).
Proof.
  unfold scientific_name_schema, transform, z_string. simpl.
  destruct (JsString.blank s) eqn:Hb.
  - apply trim_blank in Hb. rewrite Hb. reflexivity.
  - destruct (JsString.trim s) as [|c r] eqn:E.
    + apply trim_blank in E. congruence.
    + simpl. rewrite <- E, trim_idempotent. reflexivity.
Qed.

(** X1. The scientific name is required: a string that is empty or white
    space only is refused with the minimum-length issue, any other string
    is accepted and output trimmed; null and undefined are refused as not
    being strings. *)
Theorem scientific_name_required (s : jsstring) :
  scientific_name_schema url_after_scheme (VString s) =
    (if JsString.blank s
     then Invalid [too_small 1 true]
     else Valid (JsString.trim s)) /\
  scientific_name_schema url_after_scheme VNull =
    Invalid [invalid_type TString] /\
  scientific_name_schema url_after_scheme VUndefined =
    Invalid [invalid_type TString].
Proof.
  split; [apply scientific_name_schema_string | split; reflexivity].
Qed.

(** X2. The kingdom is one of six labels: every label parses to its
    kingdom, a string that parses is the label of the kingdom it parses
    to, and any other string is refused as not in the enumeration. *)
Theorem kingdoms_closed (k : Kingdom) (s : jsstring) :
  kingdoms (VString (kingdom_label k)) = Valid k /\
  (kingdoms (VString s) = Valid k -> s = kingdom_label k) /\
  ((forall k', s <> kingdom_label k') ->
   kingdoms (VString s) = Invalid [invalid_enum_value]).
Proof.
  split; [destruct k; reflexivity |]. split.
  - unfold kingdoms, kingdoms_options, JsString.eqb. simpl.
    repeat (case_bool_decide;
            [intros E; injection E as <-; symmetry; assumption |]).
    discriminate.
  - intros Hn. unfold kingdoms, kingdoms_options, JsString.eqb. simpl.
    repeat (case_bool_decide;
            [exfalso;
             match goal with E : _ = s |- _ => symmetry in E; revert E end;
             first [exact (Hn Animalia) | exact (Hn Plantae)
                   | exact (Hn Fungi) | exact (Hn Protista)
                   | exact (Hn Archaea) | exact (Hn Bacteria)] |]).
    reflexivity.
Qed.

Lemma Qle_bool_inject_Z (a b : Z) :
  Qle_bool (inject_Z a) (inject_Z b) = (a <=? b).
Proof. unfold Qle_bool. simpl. rewrite !Z.mul_1_r. reflexivity. Qed.

(** X3. The total population is null or an integer of at least 1: null
    parses to the absent marker, an integer [z] is accepted exactly when
    [1 <= z] and otherwise raises the positive and the minimum issue, and
    NaN and the infinities are refused. In general a number is accepted
    exactly when it is an integer and not below 1, the positive check
    adding nothing to the minimum. *)
Theorem total_population_positive_integer (z : Z) (n : number) :
  total_population_schema VNull = Valid None /\
  total_population_schema (VNumber (Finite (inject_Z z))) =
    (if 1 <=? z
     then Valid (Some (Finite (inject_Z z)))
     else Invalid [too_small 0 false; too_small 1 true]) /\
  is_valid (total_population_schema (VNumber n)) =
    Number.isInteger n && negb (Number.ltZ n 1) /\
  is_valid (total_population_schema (VNumber NaN)) = false /\
  (forall negative,
      is_valid (total_population_schema (VNumber (Infinity negative))) =
      false).
Proof.
  split; [reflexivity |]. split; [| split; [| split]].
  - unfold total_population_schema, nullable, z_number. simpl.
    unfold Number.isInteger, Number.leZ, Number.ltZ. simpl.
    rewrite Z.mod_1_r. simpl.
    rewrite !Qle_bool_inject_Z.
    destruct (1 <=? z) eqn:H1; simpl.
    + assert (H0 : (z <=? 0) = false) by lia. rewrite H0. reflexivity.
    + assert (H0 : (z <=? 0) = true) by lia. rewrite H0. reflexivity.
  - destruct n as [| negative | q]; try reflexivity.
    unfold total_population_schema, nullable, z_number. simpl.
    unfold Number.leZ, Number.ltZ.
    destruct (Qnum q mod QDen q =? 0);
      destruct (Qle_bool q (inject_Z 0)) eqn:H0;
      destruct (Qle_bool (inject_Z 1) q) eqn:H1; simpl; try reflexivity;
      exfalso; apply Qle_bool_iff in H0, H1;
      pose proof (Qle_trans _ _ _ H1 H0) as H;
      unfold Qle in H; simpl in H; lia.
  - reflexivity.
  - intros []; reflexivity.
Qed.

(** A field that is refused is refused for a reason: no schema answers
    with an empty list of issues. *)
Lemma z_string_reason (checks : list string_check) (v : value) :
  z_string url_after_scheme checks v <> Invalid [].
Proof.
  unfold z_string. destruct v; try discriminate.
  destruct (run_string_checks _ _ _) as [out [|i l]]; discriminate.
Qed.

Lemma z_number_reason (checks : list number_check) (v : value) :
  z_number checks v <> Invalid [].
Proof.
  unfold z_number. destruct v as [| | | n |]; try discriminate.
  destruct n; try discriminate;
    destruct (flat_map _ _); discriminate.
Qed.

Lemma nullable_reason {A} (inner : value -> parsed A) (v : value) :
  inner v <> Invalid [] -> nullable inner v <> Invalid [].
Proof.
  unfold nullable. intros H.
  destruct v; try discriminate; destruct (inner _); congruence.
Qed.

Lemma transform_reason {A B} (inner : value -> parsed A) (f : A -> B)
      (v : value) :
  inner v <> Invalid [] -> transform inner f v <> Invalid [].
Proof. unfold transform. intros H. destruct (inner v); congruence. Qed.

Lemma kingdoms_reason (v : value) : kingdoms v <> Invalid [].
Proof.
  unfold kingdoms. destruct v; try discriminate.
  destruct (List.find _ _); discriminate.
Qed.

Lemma z_boolean_reason (v : value) : z_boolean v <> Invalid [].
Proof. destruct v; discriminate. Qed.

Lemma at_path_nil {A} (f : field) (r : parsed A) :
  r <> Invalid [] -> at_path f r = [] -> exists a, r = Valid a.
Proof.
  destruct r as [a | [|i l]]; simpl; intros Hr H;
    [eauto | contradiction | discriminate].
Qed.

(** X5. The object schema succeeds exactly when no field raises an issue;
    when it fails it reports the issues of all fields, and never an empty
    list. *)
Theorem speciesSchema_succeeds_iff_no_issue (raw : RawForm) :
  ((exists data, speciesSchema url_after_scheme raw = Success data) <->
   all_issues url_after_scheme raw = []) /\
  (forall issues,
      speciesSchema url_after_scheme raw = Failure issues ->
      issues = all_issues url_after_scheme raw /\ issues <> []).
Proof.
  assert (Hok : all_issues url_after_scheme raw = [] ->
                exists data, speciesSchema url_after_scheme raw = Success data).
  { unfold all_issues. intros H.
    repeat (apply app_eq_nil in H as [?H H]).
    apply at_path_nil in H0 as [a1 E1];
      [| apply transform_reason, z_string_reason].
    apply at_path_nil in H1 as [a2 E2];
      [| apply transform_reason, nullable_reason, z_string_reason].
    apply at_path_nil in H2 as [a3 E3]; [| apply kingdoms_reason].
    apply at_path_nil in H3 as [a4 E4];
      [| apply nullable_reason, z_number_reason].
    apply at_path_nil in H4 as [a5 E5];
      [| apply transform_reason, nullable_reason, z_string_reason].
    apply at_path_nil in H5 as [a6 E6];
      [| apply transform_reason, nullable_reason, z_string_reason].
    apply at_path_nil in H as [a7 E7]; [| apply z_boolean_reason].
    unfold speciesSchema. rewrite E1, E2, E3, E4, E5, E6, E7.
    eexists. reflexivity. }
  destruct (speciesSchema_cases url_after_scheme raw) as [H | [H0 [data H]]].
  - assert (Hne : all_issues url_after_scheme raw <> []).
    { intros E. destruct (Hok E) as [data Hd]. congruence. }
    split.
    + split; [intros [data Hd]; congruence | contradiction].
    + intros issues Hi. rewrite H in Hi. injection Hi as <-. auto.
  - split.
    + split; [auto | eauto].
    + intros issues Hi. congruence.
Qed.

End FieldProperties.

(** ** What the validator outputs validates to itself *)

Section FixedPoint.

Variable url_after_scheme : jsstring -> jsstring -> bool.

Lemma scientific_name_fixed (v : value) (a : jsstring) :
  scientific_name_schema url_after_scheme v = Valid a ->
  scientific_name_schema url_after_scheme (VString a) = Valid a.
Proof.
  destruct v as [| | | | s]; try discriminate.
  rewrite scientific_name_schema_string.
  destruct (JsString.blank s) eqn:Hb; [discriminate |].
  intros H. injection H as <-.
  rewrite scientific_name_schema_string, trim_not_blank by exact Hb.
  rewrite trim_idempotent. reflexivity.
Qed.

Lemma optional_text_string (s : jsstring) :
  transform (nullable (z_string url_after_scheme [])) blank_to_null
            (VString s) =
  Valid (if JsString.blank s then None else Some (JsString.trim s)).
Proof.
  unfold transform, nullable, z_string, run_string_checks.
  rewrite blank_to_null_spec. reflexivity.
Qed.

Lemma optional_text_fixed (v : value) (o : option jsstring) :
  transform (nullable (z_string url_after_scheme [])) blank_to_null v =
    Valid o ->
  transform (nullable (z_string url_after_scheme [])) blank_to_null
            (string_or_null o) = Valid o.
Proof.
  destruct v as [| | | | s]; try discriminate.
  - intros H. injection H as <-. reflexivity.
  - rewrite optional_text_string. intros H. injection H as <-.
    destruct (JsString.blank s) eqn:Hb; [reflexivity |].
    simpl. rewrite optional_text_string, trim_not_blank by exact Hb.
    rewrite trim_idempotent. reflexivity.
Qed.

Lemma total_population_fixed (v : value) (o : option number) :
  total_population_schema v = Valid o ->
  total_population_schema (number_or_null o) = Valid o.
Proof.
  destruct v as [| | | n |]; try discriminate.
  - intros H. injection H as <-. reflexivity.
  - unfold total_population_schema, nullable.
    destruct (z_number _ (VNumber n)) as [n' |] eqn:E; [| discriminate].
    intros H. injection H as <-.
    assert (n' = n).
    { revert E. unfold z_number. destruct n; try discriminate;
        destruct (flat_map _ _); try discriminate; congruence. }
    subst n'. change (number_or_null (Some n)) with (VNumber n).
    cbv iota. rewrite E. reflexivity.
Qed.

Lemma image_fixed (v : value) (o : option jsstring) :
  image_schema url_after_scheme v = Valid o ->
  (forall u, o = Some u -> Url.parses url_after_scheme u = true) ->
  image_schema url_after_scheme (string_or_null o) = Valid o.
Proof.
  destruct v as [| | | | s]; try discriminate.
  - intros H _. injection H as <-. reflexivity.
  - destruct (image_schema_spec url_after_scheme s) as [_ Hs]. rewrite Hs.
    destruct (Url.parses url_after_scheme s) eqn:Hp; [| discriminate].
    intros H Hu. injection H as <-. simpl.
    destruct (image_schema_spec url_after_scheme (JsString.trim s))
      as [_ Ht].
    rewrite Ht, (Hu _ eq_refl), trim_idempotent. reflexivity.
Qed.

(** X4. A payload that came out of the validator is a fixed point of it:
    written back into the form, as [form.reset(input)] does after a
    commit, it validates to itself, provided its image, if any, is still
    accepted by the URL constructor once trimmed. *)
Theorem validated_payload_is_fixed (raw : RawForm) (data : FormData) :
  speciesSchema url_after_scheme raw = Success data ->
  (forall u, image data = Some u -> Url.parses url_after_scheme u = true) ->
  speciesSchema url_after_scheme (values_of data) = Success data.
Proof.
  unfold speciesSchema.
  destruct (scientific_name_schema _ _) as [a1 |] eqn:E1; [| discriminate].
  destruct (common_name_schema _ _) as [a2 |] eqn:E2; [| discriminate].
  destruct (kingdoms _) as [a3 |] eqn:E3; [| discriminate].
  destruct (total_population_schema _) as [a4 |] eqn:E4; [| discriminate].
  destruct (image_schema _ _) as [a5 |] eqn:E5; [| discriminate].
  destruct (description_schema _ _) as [a6 |] eqn:E6; [| discriminate].
  destruct (endangered_schema _) as [a7 |] eqn:E7; [| discriminate].
  intros H Hu. injection H as <-.
  cbn [image] in Hu.
  unfold values_of.
  cbn [raw_scientific_name raw_common_name raw_kingdom raw_total_population
       raw_image raw_description raw_endangered
       scientific_name common_name kingdom total_population image
       description endangered].
  rewrite (scientific_name_fixed _ _ E1).
  unfold common_name_schema, description_schema in *.
  rewrite (optional_text_fixed _ _ E2), (optional_text_fixed _ _ E6).
  rewrite (total_population_fixed _ _ E4).
  rewrite (image_fixed _ _ E5 Hu).
  assert (E3' : kingdoms (VString (kingdom_label a3)) = Valid a3)
    by (destruct a3; reflexivity).
  rewrite E3'. reflexivity.
Qed.

End FixedPoint.

(** The retyped draft of [felis_catus] and the payload it validates to. *)
Lemma validated_payload_is_fixed_witness :
  speciesSchema any_after_scheme felis_draft = Success felis_input /\
  speciesSchema any_after_scheme (values_of felis_input) =
  Success felis_input.
Proof.
  split; [reflexivity |].
  apply (validated_payload_is_fixed any_after_scheme felis_draft felis_input).
  - reflexivity.
  - intros u H. discriminate H.
Defined.

(** ** Sessions with the dialog *)

Section SessionProperties.

Variable url_after_scheme : jsstring -> jsstring -> bool.
Variable species : Species.t.
Variable currentUser : jsstring.

Lemma click_Confirm (env : Env) (d : Dialog) :
  exec (click url_after_scheme species env Confirm) d =
  match speciesSchema url_after_scheme (formValues (form d)) with
  | Success input => exec (onSubmit species env input) d
  | Failure _ => d
  end.
Proof.
  unfold exec, click, onClick, button_type, bind, ret, handleSubmit.
  destruct (speciesSchema _ _); reflexivity.
Qed.

Lemma click_Cancel (env : Env) (d : Dialog) :
  exec (click url_after_scheme species env Cancel) d =
  {| isEditing := if window_confirm env discard_prompt
                  then false else isEditing d;
     form := if window_confirm env discard_prompt
             then {| formDefaults := defaultValues species;
                     formValues := defaultValues species |}
             else form d;
     trace := trace d ++ [ev_confirm discard_prompt] |}.
Proof.
  unfold exec, click, onClick, button_type, handleCancel, confirm, bind,
    emit, ret. simpl. fold discard_prompt.
  destruct (window_confirm env discard_prompt); reflexivity.
Qed.

Lemma click_EditSpecies (env : Env) (d : Dialog) :
  exec (click url_after_scheme species env EditSpecies) d =
  {| isEditing := true; form := form d; trace := trace d |}.
Proof. reflexivity. Qed.

Lemma click_DeleteSpecies (env : Env) (d : Dialog) :
  exec (click url_after_scheme species env DeleteSpecies) d =
  exec (onDelete species env) d.
Proof.
  unfold exec, click, onClick, button_type, bind, ret.
  destruct (onDelete species env d) as [[] d']. reflexivity.
Qed.

(** X6. A click on Confirm sends the draft through the validator first:
    a draft that fails leaves the dialog exactly as it was, with no
    request; a draft that passes issues one update, for this record, with
    the validated payload and not the raw draft. *)
Theorem confirm_validates_before_update (env : Env) (d : Dialog) :
  let d' := exec (click url_after_scheme species env Confirm) d in
  match speciesSchema url_after_scheme (formValues (form d)) with
  | Failure _ => d' = d
  | Success input =>
      requests (trace d') =
      requests (trace d) ++ [Update input (Species.id species)]
  end.
Proof.
  intros d'. subst d'. rewrite click_Confirm.
  destruct (speciesSchema _ _) as [input | issues]; [| reflexivity].
  rewrite onSubmit_trace.
  destruct (supabase env _); simpl; rewrite !requests_app; simpl;
    rewrite ?app_nil_r; reflexivity.
Qed.

(** X7. A commit the backend accepts moves the dialog to viewing, makes the
    payload both the draft and the baseline of the form, signals one
    refresh and shows one toast, "Changes saved!", whose description names
    the submitted scientific name. *)
Theorem successful_commit_saves (env : Env) (input : FormData) (d : Dialog) :
  supabase env (Update input (Species.id species)) = None ->
  let d' := exec (onSubmit species env input) d in
  isEditing d' = false /\
  form d' = {| formDefaults := values_of input;
               formValues := values_of input |} /\
  trace d' = trace d ++ [ev_request (Update input (Species.id species));
                         ev_refresh;
                         ev_toast (saved_toast input)] /\
  toasts (trace d') =
    toasts (trace d) ++
    [{| Toast.title := js "Changes saved!";
        Toast.description :=
          js "Saved your changes to " ++ scientific_name input ++ js ".";
        Toast.variant := variant_default |}].
Proof.
  intros Hs d'. subst d'. rewrite onSubmit_trace, Hs. simpl.
  rewrite <- !app_assoc. simpl. repeat split.
  rewrite toasts_app. reflexivity.
Qed.

Abbreviation run_session := (run url_after_scheme species currentUser).
Abbreviation step_session := (step url_after_scheme species currentUser).
Abbreviation legit := (legitimate url_after_scheme species).

Lemma run_app (a b : list Action) (d : Dialog) :
  run_session (a ++ b) d = run_session b (run_session a d).
Proof. apply fold_left_app. Qed.

Lemma run_changes_editing (drafts : list RawForm) (d : Dialog) :
  isEditing d = true ->
  isEditing (run_session (List.map act_change drafts) d) = true /\
  trace (run_session (List.map act_change drafts) d) = trace d /\
  formDefaults (form (run_session (List.map act_change drafts) d)) =
    formDefaults (form d).
Proof.
  revert d. induction drafts as [|draft drafts IH]; intros d He.
  - auto.
  - change (run_session (List.map act_change (draft :: drafts)) d)
      with (run_session (List.map act_change drafts) (change draft d)).
    unfold change. rewrite He.
    destruct (IH (exec (form_setValues draft) d) He) as [H1 [H2 H3]].
    rewrite H1, H2, H3. auto.
Qed.

(** X8. Starting an edit, typing any number of changes and cancelling with
    the confirmation accepted brings the author back to the dialog as it
    was mounted: viewing, the form on the values of the record, and no
    request, notification or refresh on the way. *)
Theorem edit_then_cancel_restores
        (env0 env : Env) (drafts : list RawForm) :
  Species.author species = currentUser ->
  window_confirm env discard_prompt = true ->
  let d := run_session (act_click EditSpecies env0
                          :: List.map act_change drafts
                          ++ [act_click Cancel env])
                       (mount species) in
  isEditing d = false /\
  form d = form (mount species) /\
  trace d = [ev_confirm discard_prompt].
Proof.
  intros Ha Hc d. subst d.
  change (act_click EditSpecies env0 :: List.map act_change drafts
            ++ [act_click Cancel env])
    with ([act_click EditSpecies env0]
            ++ List.map act_change drafts ++ [act_click Cancel env]).
  rewrite !run_app.
  set (d1 := run_session [act_click EditSpecies env0] (mount species)).
  assert (H1 : isEditing d1 = true /\ trace d1 = []).
  { subst d1. simpl. unfold press, rendered, controls, JsString.eqb.
    rewrite bool_decide_eq_true_2 by exact Ha. simpl. auto. }
  destruct H1 as [He1 Ht1].
  destruct (run_changes_editing drafts d1 He1) as [He2 [Ht2 _]].
  set (d2 := run_session (List.map act_change drafts) d1) in *.
  simpl. unfold press, rendered, controls, JsString.eqb.
  rewrite bool_decide_eq_true_2 by exact Ha. rewrite He2. simpl.
  rewrite click_Cancel, Hc. simpl. rewrite Ht2, Ht1. auto.
Qed.

(** X9. For a user who is not the author a viewing dialog is read-only:
    whatever is clicked or typed, and however the collaborators would
    answer, the dialog stays as it is; no request is ever issued. *)
Theorem non_author_cannot_act (actions : list Action) (d : Dialog) :
  Species.author species <> currentUser ->
  isEditing d = false ->
  run_session actions d = d.
Proof.
  intros Ha He. induction actions as [|a actions IH]; [reflexivity |].
  simpl. assert (Hs : step_session d a = d).
  { destruct a as [c env | draft]; simpl.
    - unfold press, rendered, controls, JsString.eqb.
      rewrite bool_decide_eq_false_2 by exact Ha. reflexivity.
    - unfold change. rewrite He. reflexivity. }
  fold (run_session actions (step_session d a)). rewrite Hs. exact IH.
Qed.

Lemma step_requests (a : Action) (d : Dialog) :
  Forall legit (requests (trace d)) ->
  Forall legit (requests (trace (step_session d a))).
Proof.
  intros Hd. destruct a as [c env | draft]; simpl.
  - unfold press. destruct (rendered species currentUser c d); [| exact Hd].
    destruct c.
    + rewrite click_Confirm.
      destruct (speciesSchema _ _) as [input |] eqn:E; [| exact Hd].
      rewrite onSubmit_trace.
      assert (Hl : legit (Update input (Species.id species)))
        by (split; [reflexivity | eauto]).
      destruct (supabase env _); simpl; rewrite !requests_app; simpl;
        rewrite ?app_nil_r; apply Forall_app; auto.
    + rewrite click_Cancel. simpl. rewrite requests_app. simpl.
      rewrite app_nil_r. exact Hd.
    + rewrite click_EditSpecies. exact Hd.
    + rewrite click_DeleteSpecies, onDelete_trace. simpl.
      rewrite requests_app. apply Forall_app. split; [exact Hd |]. simpl.
      destruct (window_confirm env delete_prompt); [| constructor].
      simpl. constructor; [split; [reflexivity | exact I] |].
      destruct (supabase env _); simpl; constructor.
  - unfold change. destruct (isEditing d); [| exact Hd]. exact Hd.
Qed.

Lemma step_viewing_shows_baseline (a : Action) (d : Dialog) :
  (isEditing d = false -> formValues (form d) = formDefaults (form d)) ->
  isEditing (step_session d a) = false ->
  formValues (form (step_session d a)) =
  formDefaults (form (step_session d a)).
Proof.
  intros Hd. destruct a as [c env | draft]; simpl.
  - unfold press. destruct (rendered species currentUser c d); [| exact Hd].
    destruct c.
    + rewrite click_Confirm.
      destruct (speciesSchema _ _) as [input |]; [| exact Hd].
      rewrite onSubmit_trace. destruct (supabase env _); simpl; auto.
    + rewrite click_Cancel.
      destruct (window_confirm env discard_prompt); simpl; auto.
    + rewrite click_EditSpecies. simpl. discriminate.
    + rewrite click_DeleteSpecies, onDelete_trace. simpl. exact Hd.
  - unfold change. destruct (isEditing d) eqn:He; [| intros _; auto].
    simpl. try rewrite He. discriminate.
Qed.

End SessionProperties.

Section SessionInvariants.

Variable url_after_scheme : jsstring -> jsstring -> bool.
Variable species : Species.t.
Variable currentUser : jsstring.

Lemma run_invariant (P : Dialog -> Prop) (actions : list Action) :
  (forall a d, P d -> P (step url_after_scheme species currentUser d a)) ->
  forall d, P d -> P (run url_after_scheme species currentUser actions d).
Proof.
  intros Hstep. induction actions as [|a actions IH]; intros d Hd.
  - exact Hd.
  - simpl. apply IH, Hstep, Hd.
Qed.

(** X10. Whatever is clicked and typed in a dialog since it was mounted,
    and however the user and the backend answer, every request it issues
    is for its own record, and every update carries a payload that the
    validator produced. *)
Theorem session_requests_are_legitimate (actions : list Action) :
  Forall (legitimate url_after_scheme species)
         (requests (trace (run url_after_scheme species currentUser actions
                               (mount species)))).
Proof.
  apply (run_invariant
           (fun d => Forall (legitimate url_after_scheme species)
                            (requests (trace d)))).
  - intros a d. apply step_requests.
  - constructor.
Qed.

(** X11. Whatever is clicked and typed in a dialog since it was mounted, a
    dialog that is viewing shows its baseline: the draft differs from the
    baseline only while the dialog is editing. *)
Theorem viewing_shows_baseline (actions : list Action) :
  let d := run url_after_scheme species currentUser actions
               (mount species) in
  isEditing d = true \/ formValues (form d) = formDefaults (form d).
Proof.
  intros d. subst d.
  assert (H : isEditing (run url_after_scheme species currentUser actions
                             (mount species)) = false ->
              formValues (form (run url_after_scheme species currentUser
                                    actions (mount species))) =
              formDefaults (form (run url_after_scheme species currentUser
                                      actions (mount species)))).
  { apply (run_invariant
             (fun d => isEditing d = false ->
                       formValues (form d) = formDefaults (form d))).
    - intros a d. apply step_viewing_shows_baseline.
    - reflexivity. }
  destruct (isEditing _); [left; reflexivity | right; auto].
Qed.

End SessionInvariants.

(** ** The author info *)

Lemma fetches_app (a b : list ProfileResponse) (p : AuthorPanel) :
  fetches (a ++ b) p = fetches b (fetches a p).
Proof. apply fold_left_app. Qed.

Lemma fetches_errors (messages : list jsstring) (p : AuthorPanel) :
  fetches (List.map profile_error messages) p =
  {| authorInfo := authorInfo p;
     console := console p ++
                List.map (fun m => [js "Error fetching author info:"; m])
                         messages |}.
Proof.
  revert p. induction messages as [|m messages IH]; intros p; simpl.
  - rewrite app_nil_r. destruct p; reflexivity.
  - unfold fetches in IH. rewrite IH. simpl.
    rewrite <- app_assoc. reflexivity.
Qed.

(** X12. The author block shows the profile of the last fetch that
    succeeded: fetches that fail afterwards are logged to the console, one
    entry each with the message of the backend, and leave the profile
    shown before in place; while no fetch has succeeded nothing is
    shown. *)
Theorem author_info_is_last_success
        (before : list ProfileResponse) (data : AuthorInfo.t)
        (messages : list jsstring) (p : AuthorPanel) :
  let p' := fetches (before ++ profile_data data
                            :: List.map profile_error messages) p in
  author_block p' = Some data /\
  console p' =
    console (fetches before p) ++
    List.map (fun m => [js "Error fetching author info:"; m]) messages /\
  author_block (fetches (List.map profile_error messages)
                        author_panel_mount) = None.
Proof.
  intros p'. subst p'.
  change (profile_data data :: List.map profile_error messages)
    with ([profile_data data] ++ List.map profile_error messages).
  rewrite !fetches_app, !fetches_errors. simpl.
  destruct data; auto.
Qed.

(** ** The sort *)

Section SortOrder.

Context {A : Type}.
Variable comparefn : A -> A -> Z.

(** Of two elements one may always stand before the other. *)
Hypothesis comparefn_total :
  forall a b, 0 < comparefn a b -> comparefn b a <= 0.

Lemma sort_insert_HdRel (y x : A) (l : list A) :
  in_order comparefn y x ->
  HdRel (in_order comparefn) y l ->
  HdRel (in_order comparefn) y (sort_insert comparefn x l).
Proof.
  intros Hyx Hy. destruct l as [|z l]; simpl.
  - constructor. exact Hyx.
  - destruct (comparefn x z <=? 0); constructor.
    + exact Hyx.
    + inversion Hy. assumption.
Qed.

Lemma sort_insert_Sorted (x : A) (l : list A) :
  Sorted (in_order comparefn) l ->
  Sorted (in_order comparefn) (sort_insert comparefn x l).
Proof.
  induction l as [|y l IH]; intros Hs; simpl.
  - repeat constructor.
  - destruct (comparefn x y <=? 0) eqn:Hxy.
    + constructor; [exact Hs |]. constructor. unfold in_order. lia.
    + inversion Hs as [| ? ? Hl Hy]; subst.
      constructor; [apply IH, Hl |].
      apply sort_insert_HdRel; [| exact Hy].
      apply comparefn_total. lia.
Qed.

Lemma array_sort_Sorted (l : list A) :
  Sorted (in_order comparefn) (array_sort comparefn l).
Proof.
  induction l as [|x l IH]; simpl; [constructor |].
  apply sort_insert_Sorted, IH.
Qed.

End SortOrder.

Section SortFixed.

Context {A : Type}.
Variable comparefn : A -> A -> Z.

(** A list already in order is left as it is. *)
Lemma array_sort_fixed (l : list A) :
  Sorted (in_order comparefn) l -> array_sort comparefn l = l.
Proof.
  induction l as [|x l IH]; intros Hs; [reflexivity |].
  inversion Hs as [| ? ? Hl Hx]; subst. simpl. rewrite (IH Hl).
  destruct l as [|y l]; [reflexivity |].
  inversion Hx as [| ? ? Hxy]; subst. simpl.
  unfold in_order in Hxy.
  assert (E : (comparefn x y <=? 0) = true) by lia.
  rewrite E. reflexivity.
Qed.

(** Elements that tie with a common element tie with each other. *)
Hypothesis ties_agree :
  forall a b c, comparefn a b = 0 -> comparefn a c = 0 -> comparefn b c = 0.

Lemma sort_insert_ranked (x z : A) (l : list A) :
  ranked_with comparefn x (sort_insert comparefn z l) =
  ranked_with comparefn x (z :: l).
Proof.
  unfold ranked_with. induction l as [|y l IH]; [reflexivity |].
  simpl. destruct (comparefn z y <=? 0) eqn:Hzy; [reflexivity |].
  simpl. rewrite IH. simpl.
  destruct (comparefn x z =? 0) eqn:Hxz; [| reflexivity].
  destruct (comparefn x y =? 0) eqn:Hxy; [| reflexivity].
  pose proof (ties_agree x z y) as H. lia.
Qed.

Lemma array_sort_ranked (x : A) (l : list A) :
  ranked_with comparefn x (array_sort comparefn l) =
  ranked_with comparefn x l.
Proof.
  induction l as [|z l IH]; [reflexivity |].
  simpl. rewrite sort_insert_ranked.
  unfold ranked_with in *. simpl. rewrite IH. reflexivity.
Qed.

End SortFixed.

(** The comparator of the list clients inherits what the collation has. *)
Lemma compareSpecies_total
      (toLowerCase : jsstring -> jsstring)
      (localeCompare : jsstring -> jsstring -> Z) (sortOrder : jsstring) :
  (forall a b, 0 < localeCompare a b -> localeCompare b a <= 0) ->
  (forall a b, localeCompare a b < 0 -> 0 <= localeCompare b a) ->
  forall a b,
    0 < compareSpecies toLowerCase localeCompare sortOrder a b ->
    compareSpecies toLowerCase localeCompare sortOrder b a <= 0.
Proof.
  intros H1 H2 a b. unfold compareSpecies.
  destruct (JsString.eqb sortOrder (js "asc")).
  - apply H1.
  - intros H.
    pose proof (H2 (toLowerCase (Species.scientific_name a))
                   (toLowerCase (Species.scientific_name b))).
    lia.
Qed.

Lemma compareSpecies_ties
      (toLowerCase : jsstring -> jsstring)
      (localeCompare : jsstring -> jsstring -> Z) (sortOrder : jsstring) :
  (forall a b c, localeCompare a b = 0 -> localeCompare a c = 0 ->
                 localeCompare b c = 0) ->
  forall a b c,
    compareSpecies toLowerCase localeCompare sortOrder a b = 0 ->
    compareSpecies toLowerCase localeCompare sortOrder a c = 0 ->
    compareSpecies toLowerCase localeCompare sortOrder b c = 0.
Proof.
  intros H a b c. unfold compareSpecies.
  destruct (JsString.eqb sortOrder (js "asc")).
  - apply H.
  - intros Hab Hac.
    pose proof (H (toLowerCase (Species.scientific_name a))
                  (toLowerCase (Species.scientific_name b))
                  (toLowerCase (Species.scientific_name c))).
    lia.
Qed.

(** Comparison by code units is a collation of that kind. *)
Lemma codeunit_compare_opp (a b : jsstring) :
  codeunit_compare b a = - codeunit_compare a b.
Proof.
  revert b. induction a as [|x a IH]; intros [|y b]; simpl; try reflexivity.
  destruct (x <? y)%N eqn:Hxy, (y <? x)%N eqn:Hyx; try reflexivity.
  - apply N.ltb_lt in Hxy, Hyx. lia.
  - apply IH.
Qed.

Lemma codeunit_compare_eq (a b : jsstring) :
  codeunit_compare a b = 0 -> a = b.
Proof.
  revert b. induction a as [|x a IH]; intros [|y b]; simpl;
    try reflexivity; try discriminate.
  destruct (x <? y)%N eqn:Hxy; [discriminate |].
  destruct (y <? x)%N eqn:Hyx; [discriminate |].
  intros H. apply N.ltb_ge in Hxy, Hyx.
  f_equal; [lia | apply IH, H].
Qed.

(** ** What the list clients display *)

Section DisplayProperties.

Variable toLowerCase : jsstring -> jsstring.
Variable localeCompare : jsstring -> jsstring -> Z.
Variable initialSpecies : nat.

Abbreviation list_toggle :=
  (ListClient.toggleSort toLowerCase localeCompare initialSpecies).
Abbreviation list_mount :=
  (ListClient.mount toLowerCase localeCompare initialSpecies).
Abbreviation router_effect :=
  (RouterListClient.sortEffect toLowerCase localeCompare initialSpecies).
Abbreviation router_toggle :=
  (RouterListClient.toggleSort toLowerCase localeCompare initialSpecies).

(** X13. Under a collation in which one of two names may always stand
    before the other, the list client with local sort state displays,
    after mounting and after any number of toggles, a rearrangement of the
    records it was given in which each record may stand before the next
    under the current order. *)
Theorem displayed_is_sorted_permutation
        (σ : gmap nat (list Species.t)) (items : list Species.t) (n : nat) :
  σ !! initialSpecies = Some items ->
  (forall a b, 0 < localeCompare a b -> localeCompare b a <= 0) ->
  (forall a b, localeCompare a b < 0 -> 0 <= localeCompare b a) ->
  let w := Nat.iter n list_toggle (list_mount σ) in
  exists shown,
    ListClient.displayed w = Some shown /\
    Permutation shown items /\
    Sorted (in_order (compareSpecies toLowerCase localeCompare
                                     (ListClient.sortOrder w))) shown.
Proof.
  intros Hi H1 H2 w.
  destruct (reachable_settled toLowerCase localeCompare initialSpecies
                              σ items n Hi) as [_ [_ Hd]].
  fold w in Hd. eexists. split; [exact Hd |]. split.
  - apply array_sort_Permutation.
  - apply array_sort_Sorted, compareSpecies_total; assumption.
Qed.

(** X14. The sort is stable: under a collation whose ties agree with each
    other, the records that tie with a given record are displayed in the
    order in which they were given, ascending and descending alike. *)
Theorem displayed_keeps_ties_in_source_order
        (σ : gmap nat (list Species.t)) (items : list Species.t) (n : nat)
        (x : Species.t) :
  σ !! initialSpecies = Some items ->
  (forall a b c, localeCompare a b = 0 -> localeCompare a c = 0 ->
                 localeCompare b c = 0) ->
  let w := Nat.iter n list_toggle (list_mount σ) in
  let ties := ranked_with (compareSpecies toLowerCase localeCompare
                                          (ListClient.sortOrder w)) x in
  exists shown,
    ListClient.displayed w = Some shown /\ ties shown = ties items.
Proof.
  intros Hi Ht w ties.
  destruct (reachable_settled toLowerCase localeCompare initialSpecies
                              σ items n Hi) as [_ [_ Hd]].
  fold w in Hd. eexists. split; [exact Hd |].
  subst ties. apply array_sort_ranked, compareSpecies_ties, Ht.
Qed.

(** X15. The in-place effect of the router-driven client changes the
    collection of its prop at most once: under a collation in which one of
    two names may always stand before the other, running the effect again
    leaves the client and the store exactly as the first run left them. *)
Theorem inplace_sort_settles
        (w : RouterListClient.t) (items : list Species.t) :
  RouterListClient.store w !! initialSpecies = Some items ->
  (forall a b, 0 < localeCompare a b -> localeCompare b a <= 0) ->
  (forall a b, localeCompare a b < 0 -> 0 <= localeCompare b a) ->
  router_effect (router_effect w) = router_effect w.
Proof.
  intros Hi H1 H2.
  assert (E : router_effect w =
              {| RouterListClient.store :=
                   <[initialSpecies :=
                       array_sort (compareSpecies toLowerCase localeCompare
                                     (RouterListClient.sortOrder w)) items]>
                     (RouterListClient.store w);
                 RouterListClient.species := initialSpecies;
                 RouterListClient.sortOrder := RouterListClient.sortOrder w;
                 RouterListClient.pushed := RouterListClient.pushed w |})
    by (unfold RouterListClient.sortEffect; rewrite Hi; reflexivity).
  rewrite E. unfold RouterListClient.sortEffect. simpl.
  rewrite lookup_insert_eq, insert_insert_eq.
  rewrite array_sort_fixed; [reflexivity |].
  apply array_sort_Sorted, compareSpecies_total; assumption.
Qed.

Lemma copy_sort_store (w : ListClient.t) :
  ListClient.store w ⊆
  ListClient.store
    (ListClient.sortEffect toLowerCase localeCompare initialSpecies w) /\
  ListClient.sortOrder
    (ListClient.sortEffect toLowerCase localeCompare initialSpecies w) =
  ListClient.sortOrder w.
Proof.
  split.
  - apply map_subseteq_spec. intros r l Hr.
    apply copy_sort_frame. exact Hr.
  - unfold ListClient.sortEffect.
    destruct (ListClient.store w !! initialSpecies); reflexivity.
Qed.

(** X16. The list client with local sort state never changes an array
    that existed when it was mounted, however often the sort is toggled:
    every array of the store it was mounted on is still there, unchanged;
    and its order is ascending after an even number of toggles and
    descending after an odd number. *)
Theorem toggles_keep_store_and_alternate
        (σ : gmap nat (list Species.t)) (n : nat) :
  let w := Nat.iter n list_toggle (list_mount σ) in
  σ ⊆ ListClient.store w /\
  ListClient.sortOrder w = if Nat.even n then js "asc" else js "desc".
Proof.
  induction n as [|n [IHs IHo]].
  - exact (copy_sort_store
             {| ListClient.store := σ;
                ListClient.species := initialSpecies;
                ListClient.sortOrder := js "asc" |}).
  - cbn zeta in *. rewrite Nat.iter_succ.
    set (w := Nat.iter n list_toggle (list_mount σ)) in *.
    unfold ListClient.toggleSort, ListClient.commit.
    assert (Hflip : ListClient.sortOrder (ListClient.handleSortToggle w) =
                    if Nat.even (S n) then js "asc" else js "desc").
    { rewrite Nat.even_succ, <- Nat.negb_even. simpl. rewrite IHo.
      destruct (Nat.even n); reflexivity. }
    assert (Hchanged : JsString.eqb
                         (ListClient.sortOrder w)
                         (ListClient.sortOrder
                            (ListClient.handleSortToggle w)) = false).
    { rewrite Hflip, IHo, Nat.even_succ, <- Nat.negb_even.
      destruct (Nat.even n); reflexivity. }
    rewrite Hchanged.
    destruct (copy_sort_store (ListClient.handleSortToggle w)) as [Hs Ho].
    split.
    + etransitivity; [exact IHs | exact Hs].
    + rewrite Ho. exact Hflip.
Qed.

(** X17. In the router-driven client the sort button never changes what
    the component holds: after any number of clicks the store, the
    displayed reference and the sort order are as before, and every click
    has pushed the same URL, the one for the order opposite to the order
    the component started with. *)
Theorem router_toggles_push_same_url (w : RouterListClient.t) (n : nat) :
  let w' := Nat.iter n router_toggle w in
  RouterListClient.store w' = RouterListClient.store w /\
  RouterListClient.species w' = RouterListClient.species w /\
  RouterListClient.sortOrder w' = RouterListClient.sortOrder w /\
  RouterListClient.pushed w' =
    RouterListClient.pushed w ++
    List.repeat
      (js "/?sort=" ++
       (if JsString.eqb (RouterListClient.sortOrder w) (js "asc")
        then js "desc" else js "asc"))
      n.
Proof.
  induction n as [|n [IH1 [IH2 [IH3 IH4]]]].
  - simpl. rewrite app_nil_r. auto.
  - cbn zeta in *. rewrite Nat.iter_succ.
    set (v := Nat.iter n router_toggle w) in *.
    destruct (router_toggle_keeps_state toLowerCase localeCompare
                                          initialSpecies v)
      as [H1 [H2 H3]].
    cbn zeta in *.
    rewrite H1, H2, H3. repeat split; try assumption.
    unfold RouterListClient.toggleSort, RouterListClient.commit,
      JsString.eqb.
    rewrite bool_decide_eq_true_2 by reflexivity. simpl.
    fold (JsString.eqb (RouterListClient.sortOrder v) (js "asc")).
    rewrite IH4, IH3, <- app_assoc. f_equal.
    simpl. symmetry. apply repeat_cons.
Qed.

End DisplayProperties.

(** The two records of [sample_store], mounted and toggled once. *)
Lemma displayed_is_sorted_permutation_witness :
  sample_store !! 0%nat = Some [felis_catus; canis_lupus] /\
  exists shown,
    ListClient.displayed
      (Nat.iter 1 (ListClient.toggleSort ascii_toLowerCase codeunit_compare 0)
                (ListClient.mount ascii_toLowerCase codeunit_compare 0
                                  sample_store)) = Some shown /\
    Permutation shown [felis_catus; canis_lupus] /\
    Sorted (in_order
              (compareSpecies
                 ascii_toLowerCase codeunit_compare
                 (ListClient.sortOrder
                    (Nat.iter 1
                       (ListClient.toggleSort ascii_toLowerCase
                                              codeunit_compare 0)
                       (ListClient.mount ascii_toLowerCase codeunit_compare 0
                                         sample_store)))))
           shown.
Proof.
  split; [reflexivity |].
  apply (displayed_is_sorted_permutation
           ascii_toLowerCase codeunit_compare 0%nat sample_store
           [felis_catus; canis_lupus] 1%nat eq_refl).
  - intros a b H. rewrite codeunit_compare_opp. lia.
  - intros a b H. rewrite codeunit_compare_opp. lia.
Defined.

(** The records of [sample_store] that tie with [felis_catus]. *)
Lemma displayed_keeps_ties_in_source_order_witness :
  sample_store !! 0%nat = Some [felis_catus; canis_lupus] /\
  exists shown,
    ListClient.displayed
      (ListClient.mount ascii_toLowerCase codeunit_compare 0 sample_store) =
      Some shown /\
    ranked_with (compareSpecies ascii_toLowerCase codeunit_compare
                                (js "asc")) felis_catus shown =
    ranked_with (compareSpecies ascii_toLowerCase codeunit_compare
                                (js "asc")) felis_catus
                [felis_catus; canis_lupus].
Proof.
  split; [reflexivity |].
  apply (displayed_keeps_ties_in_source_order
           ascii_toLowerCase codeunit_compare 0%nat sample_store
           [felis_catus; canis_lupus] 0%nat felis_catus eq_refl).
  intros a b c Hab Hac.
  apply codeunit_compare_eq in Hab, Hac. subst.
  pose proof (codeunit_compare_opp c c). lia.
Defined.

(** The in-place effect run twice on [sample_router_client]. *)
Lemma inplace_sort_settles_witness :
  RouterListClient.store sample_router_client !! 0%nat =
    Some [felis_catus; canis_lupus] /\
  RouterListClient.sortEffect
    ascii_toLowerCase codeunit_compare 0
    (RouterListClient.sortEffect ascii_toLowerCase codeunit_compare 0
                                 sample_router_client) =
  RouterListClient.sortEffect ascii_toLowerCase codeunit_compare 0
                              sample_router_client.
Proof.
  split; [reflexivity |].
  apply (inplace_sort_settles
           ascii_toLowerCase codeunit_compare 0%nat sample_router_client
           [felis_catus; canis_lupus] eq_refl).
  - intros a b H. rewrite codeunit_compare_opp. lia.
  - intros a b H. rewrite codeunit_compare_opp. lia.
Defined.

(** ** Deleting *)

(** X18. A confirmed delete the backend accepts asks once, issues one
    delete request for this record, signals one refresh and shows one
    toast, "Deletion saved!", naming the record; the editing flag and the
    form of the dialog are not touched. *)
Theorem successful_delete_notifies
        (species : Species.t) (env : Env) (d : Dialog) :
  window_confirm env delete_prompt = true ->
  supabase env (Delete (Species.id species)) = None ->
  let d' := exec (onDelete species env) d in
  trace d' = trace d ++ [ev_confirm delete_prompt;
                         ev_request (Delete (Species.id species));
                         ev_refresh;
                         ev_toast (deleted_toast species)] /\
  toasts (trace d') = toasts (trace d) ++ [deleted_toast species] /\
  isEditing d' = isEditing d /\ form d' = form d.
Proof.
  intros Hc Hs d'. subst d'. rewrite onDelete_trace. simpl.
  rewrite Hc, Hs. simpl. rewrite toasts_app. auto.
Qed.

(** A confirmed delete of [felis_catus] that the backend accepts. *)
Lemma successful_delete_notifies_witness :
  window_confirm (sample_env true None) delete_prompt = true /\
  toasts (trace (exec (onDelete felis_catus (sample_env true None))
                      (mount felis_catus))) =
  [deleted_toast felis_catus].
Proof.
  split; [reflexivity |].
  apply (successful_delete_notifies
           felis_catus (sample_env true None) (mount felis_catus)
           eq_refl eq_refl).
Defined.

(** A commit of [felis_input] that the backend accepts. *)
Lemma successful_commit_saves_witness :
  supabase (sample_env true None)
           (Update felis_input (Species.id felis_catus)) = None /\
  isEditing (exec (onSubmit felis_catus (sample_env true None) felis_input)
                  felis_editing) = false.
Proof.
  split; [reflexivity |].
  apply (successful_commit_saves
           felis_catus (sample_env true None) felis_input felis_editing
           eq_refl).
Defined.

(** The author of [felis_catus] edits, retypes the common name and
    cancels. *)
Lemma edit_then_cancel_restores_witness :
  Species.author felis_catus = js "user-a" /\
  form (run any_after_scheme felis_catus (js "user-a")
            (act_click EditSpecies (sample_env false None)
               :: List.map act_change [felis_draft]
               ++ [act_click Cancel (sample_env true None)])
            (mount felis_catus)) =
  form (mount felis_catus).
Proof.
  split; [reflexivity |].
  apply (edit_then_cancel_restores
           any_after_scheme felis_catus (js "user-a")
           (sample_env false None) (sample_env true None) [felis_draft]
           eq_refl eq_refl).
Defined.

(** Another user clicks and types at the dialog of [felis_catus]. *)
Lemma non_author_cannot_act_witness :
  Species.author felis_catus <> js "user-b" /\
  run any_after_scheme felis_catus (js "user-b")
      [act_click DeleteSpecies (sample_env true None);
       act_click EditSpecies (sample_env true None);
       act_change felis_draft;
       act_click Confirm (sample_env true None)]
      (mount felis_catus) =
  mount felis_catus.
Proof.
  assert (H : Species.author felis_catus <> js "user-b")
    by (intros E; vm_compute in E; discriminate E).
  split; [exact H |].
  apply (non_author_cannot_act
           any_after_scheme felis_catus (js "user-b")
           [act_click DeleteSpecies (sample_env true None);
            act_click EditSpecies (sample_env true None);
            act_change felis_draft;
            act_click Confirm (sample_env true None)]
           (mount felis_catus) H eq_refl).
Defined.
